(** * fritzctl: the Fritz API layer ([fritz/fritzapi.go])

    A shallow embedding of the home-automation client: device listing,
    name-to-AIN resolution, the four dispatches ([SwitchOn], [SwitchOff],
    [Toggle], [Temperature]) and the aggregation of their outcomes.

    Conventions.
    - A Go [string] is a [string] (a sequence of bytes).
    - A Go [error] is [error]; the nil error is [None] in [option error].
    - A Go pointer that may be nil is an [option]; a Go map is a [gmap],
      the nil map being [None] where the code returns one.
    - Code that talks to the gateway or to the logger runs in the monad
      [M], which threads the chronological trace of what was done. *)

From Stdlib Require Import ZArith QArith Qround Qpower Qabs String Ascii List.
From Stdlib Require Import Lia Lqa.
From Stdlib Require Import DecimalString.
From Stdlib Require Floats.SpecFloat.
From stdpp Require Import base option list strings gmap fin_maps.

Local Open Scope string_scope.
Local Open Scope list_scope.

(** ** Go values *)

(** [errors.New(text)]: an error is known by its message. *)
Inductive error : Type :=
| errorString (text : string).

Definition Error (e : error) : string :=
  match e with errorString text => text end.

Definition errors_New (text : string) : error := errorString text.

(** [strings.Join(elems, sep)]. *)
Fixpoint Join (elems : list string) (sep : string) : string :=
  match elems with
  | [] => ""
  | x :: rest =>
      match rest with
      | [] => x
      | _ :: _ => x +:+ sep +:+ Join rest sep
      end
  end.

(** [strings.Replace(s, old, new, -1)] for a one-byte [old]: every
    occurrence of the byte is replaced. *)
Fixpoint ReplaceByte (s : string) (old : ascii) (new : string) : string :=
  match s with
  | EmptyString => EmptyString
  | String c rest =>
      if Ascii.eqb c old then new +:+ ReplaceByte rest old new
      else String c (ReplaceByte rest old new)
  end.

(** [fmt.Sprintf("%d", n)]. *)
Definition Sprintf_d (n : Z) : string :=
  NilZero.string_of_int (Z.to_int n).

(** ** Data model *)

Record Device : Type := {
  Name : string;
  Identifier : string
}.

Record Devicelist : Type := {
  Devices : list Device
}.

Record Config : Type := {
  Protocol : string;
  Host : string;
  Port : string
}.

Record SessionInfo : Type := {
  SID : string
}.

Record Client : Type := {
  client_Config : Config;
  client_SessionInfo : SessionInfo
}.

Record fritzImpl : Type := {
  client : Client
}.

Definition UsingClient (c : Client) : fritzImpl := {| client := c |}.

(** [type result struct { msg string; err error }] (declared outside
    [fritzapi.go]; the fields are the two the file uses). *)
Record result : Type := {
  msg : string;
  err : option error
}.

(** ** The trace monad *)

Inductive Event : Type :=
| HTTPGet (url : string)          (* [fritz.client.HTTPClient.Get(url)] *)
| LogSuccess (line : string)      (* [logger.Success(line)] *)
| LogWarn (line : string).        (* [logger.Warn(line)] *)

Definition Trace : Type := list Event.

Definition M (A : Type) : Type := Trace → A * Trace.

#[global] Instance M_ret : MRet M := λ A a t, (a, t).

#[global] Instance M_bind : MBind M :=
  λ A B k c t, let (a, t') := c t in k a t'.

Definition emit (e : Event) : M unit := λ t, (tt, t ++ [e]).

(** Run a list of actions from left to right and collect the results. *)
Fixpoint mapM {A B} (f : A → M B) (l : list A) : M (list B) :=
  match l with
  | [] => mret []
  | a :: rest => b ← f a; bs ← mapM f rest; mret (b :: bs)
  end.

(** The requests a trace contains. *)
Definition requests (t : Trace) : list string :=
  omap (λ e, match e with HTTPGet url => Some url | _ => None end) t.

(** ** IEEE 754 binary64 ([float64]) *)

Module Float64.
Import Floats.SpecFloat.

Definition prec : Z := 53.
Definition emax : Z := 1024.

Definition float64 : Type := spec_float.

Definition mul : float64 → float64 → float64 := SFmul prec emax.
Definition div : float64 → float64 → float64 := SFdiv prec emax.

(** The float nearest to the integer [m] times [2^e]. *)
Definition of_Z_pow2 (m e : Z) : float64 := binary_normalize prec emax m e false.
Definition of_Z (m : Z) : float64 := of_Z_pow2 m 0.

(** The values a [float64] variable can hold. *)
Definition valid (x : float64) : bool := valid_binary prec emax x.

Definition is_finite (x : float64) : bool :=
  match x with
  | S754_zero _ | S754_finite _ _ _ => true
  | S754_infinity _ | S754_nan => false
  end.

(** The rational a finite float stands for (0 on the others). *)
Definition to_Q (x : float64) : Q :=
  match x with
  | S754_finite s m e => inject_Z (cond_Zopp s (Zpos m)) * Qpower 2 e
  | _ => 0
  end.

(** The sign bit of a float (false on NaN). *)
Definition sign_bit (x : float64) : bool :=
  match x with
  | S754_zero s | S754_infinity s | S754_finite s _ _ => s
  | S754_nan => false
  end.

(** The literals [21.3] and [21.25]: the floats nearest to 213/10 and
    equal to 85/4. *)
Definition t21_3 : float64 := div (of_Z 213) (of_Z 10).
Definition t21_25 : float64 := of_Z_pow2 85 (-2).
End Float64.

(** ** Collaborators of the same repository that [fritzapi.go] calls *)

(** Go ranges over a map in an order it does not fix: a [MapRange] is one
    way of enumerating every map, each entry exactly once. *)
Record MapRange : Type := {
  range_of : ∀ V : Type, gmap string V → list (string * V);
  range_perm : ∀ (V : Type) (m : gmap string V), range_of V m ≡ₚ map_to_list m
}.
Arguments range_of _ {V} _.

Module stringutils.
(** Modelled from the spec: [stringutils.StringKeys] is outside the
    sources verified here;
    the spec calls its result "every known device name", the keys of the
    map, which Go yields in map-range order. *)
Definition StringKeys (range : MapRange) (m : gmap string string) : list string :=
  (range_of range m).*1.

(** Modelled from the spec: [stringutils.Quote] is outside the sources
    verified here; the spec
    says each name is listed "quoted" and does not fix the quotation
    marks, so the quoting of one element is the parameter [quote]. *)
Definition Quote (quote : string → string) (l : list string) : list string :=
  quote <$> l.

(** Modelled from the spec: [stringutils.ErrorMessages] is outside
    the sources verified here;
    the spec joins "all wrapped error messages", the [Error()] text of
    each error in order. *)
Definition ErrorMessages (errs : list error) : list string :=
  Error <$> errs.
End stringutils.

Module math.
Import Floats.SpecFloat Float64.

(** Round half away from zero on the rationals: the nearest integer, a
    tie going to the one of larger magnitude. *)
Definition round_half_away (x : Q) : Z :=
  if Qle_bool 0 x then Qfloor (x + (1 # 2))
  else (- Qfloor (- x + (1 # 2)))%Z.

(** Modelled from the spec: [math.Round] is outside the sources
    verified here; the spec says
    it "rounds to the nearest integer using round-half-away-from-zero".
    The spec gives no result for NaN and the infinities: there the
    result is the parameter [nonfinite]. *)
Definition Round (nonfinite : float64 → Z) (v : float64) : Z :=
  if is_finite v then round_half_away (to_Q v) else nonfinite v.
End math.

(** The failing outcomes of a batch: the name and the error of each
    outcome [(name, (message, error))] whose error is not nil. *)
Definition failures (outs : list (string * (string * option error)))
  : list (string * error) :=
  omap (λ o, (λ e, (o.1, e)) <$> o.2.2) outs.

(** ** [fritzapi.go] *)

(** A unit of work, [func() (string, error)]. *)
Definition Work : Type := M (string * option error).

Section Fritz.
Import Floats.SpecFloat Float64.

(** *** Collaborators taken as parameters *)

(** [*http.Response], as returned without error. *)
Variable Response : Type.
(** [fritz.client.HTTPClient.Get(url)]: the gateway's answer, which may
    depend on everything done before; net/http returns a response or an
    error. *)
Variable HTTPClient_Get : Trace → string → Response + error.
(** [xml.NewDecoder(response.Body).Decode(&deviceList)] on a zero
    [deviceList]: what the decoder leaves in it, and its error. *)
Variable xml_Decode : Response → Devicelist * option error.
(** [httpread.ReadFullyString(resp, err)] (package [fritzctl/httpread],
    outside the sources verified here): the body read in full, or the
    error. *)
Variable ReadFullyString : Response + error → string * option error.
(** [strings.TrimSpace]. *)
Variable TrimSpace : string → string.
(** One element of [stringutils.Quote]. *)
Variable quote : string → string.
(** The order of map ranges. *)
Variable range : MapRange.
(** [math.Round] on NaN and the infinities. *)
Variable Round_nonfinite : float64 → Z.

Variable fritz : fritzImpl.

Definition homeautoswitch : string := "/webservices/homeautoswitch.lua".

Definition base_url : string :=
  Protocol (client_Config (client fritz)) +:+ "://" +:+
  Host (client_Config (client fritz)) +:+ ":" +:+
  Port (client_Config (client fritz)) +:+ "/" +:+ homeautoswitch.

Definition sid : string := SID (client_SessionInfo (client fritz)).

Definition HTTPClient_Get_url (url : string) : M (Response + error) :=
  λ t, (HTTPClient_Get t url, t ++ [HTTPGet url]).

Definition url_getWithAinAndParam (ain switchcmd param : string) : string :=
  base_url +:+ "?ain=" +:+ ain +:+ "&switchcmd=" +:+ switchcmd +:+
  "&param=" +:+ param +:+ "&sid=" +:+ sid.

Definition getWithAinAndParam (ain switchcmd param : string) : M (Response + error) :=
  HTTPClient_Get_url (url_getWithAinAndParam ain switchcmd param).

Definition url_getWithAin (ain switchcmd : string) : string :=
  base_url +:+ "?ain=" +:+ ain +:+ "&switchcmd=" +:+ switchcmd +:+
  "&sid=" +:+ sid.

Definition getWithAin (ain switchcmd : string) : M (Response + error) :=
  HTTPClient_Get_url (url_getWithAin ain switchcmd).

Definition url_get (switchcmd : string) : string :=
  base_url +:+ "?switchcmd=" +:+ switchcmd +:+ "&sid=" +:+ sid.

Definition get (switchcmd : string) : M (Response + error) :=
  HTTPClient_Get_url (url_get switchcmd).

(** [ListDevices]: the pointer is nil ([None]) only on a transport
    error; the decoder's error comes with the address of [deviceList]. *)
Definition ListDevices : M (option Devicelist * option error) :=
  (* [defer response.Body.Close()] leaves no mark on the result *)
  r ← get "getdevicelistinfos";
  match r with
  | inr errHTTP => mret (None, Some errHTTP)
  | inl response =>
      let (deviceList, errDecode) := xml_Decode response in
      mret (Some deviceList, errDecode)
  end.

Definition switchForAin (ain command : string) : Work :=
  r ← getWithAin ain command;
  mret (ReadFullyString r).

Definition toggleForAin (ain : string) : Work :=
  r ← getWithAin ain "setswitchtoggle";
  mret (ReadFullyString r).

(** The constant [2] of [2 * value], as a [float64]. *)
Definition two : float64 := S754_finite false 4503599627370496 (-51).

Definition temperatureForAin (ain : string) (value : float64) : Work :=
  let doubledValue := mul two value in
  let rounded := math.Round Round_nonfinite doubledValue in
  r ← getWithAinAndParam ain "sethkrtsoll" (Sprintf_d rounded);
  mret (ReadFullyString r).

Definition genericSuccessHandler (key messsage : string) : M result :=
  emit (LogSuccess ("Successfully processed device '" +:+ key +:+
                    "'; response was: " +:+ TrimSpace messsage));;
  mret {| msg := messsage; err := None |}.

Definition genericErrorHandler (key message : string) (e : error) : M result :=
  emit (LogWarn ("Error while processing device '" +:+ key +:+
                 "'; error was: " +:+ Error e));;
  mret {| msg := message;
          err := Some (errors_New ("error toggling device '" +:+ key +:+
                                   "': " +:+ Error e)) |}.

(** The loop of [truncateToOne] appends the non-nil errors in order. *)
Definition truncateToOne_errs (results : list result) : list error :=
  foldl (λ errs res, match err res with
                     | Some e => errs ++ [e]
                     | None => errs
                     end) [] results.

Definition truncateToOne (results : list result) : option error :=
  let errs := truncateToOne_errs results in
  if (0 <? length errs)%nat then
    let msgs := stringutils.ErrorMessages errs in
    Some (errors_New (Join msgs "; "))
  else None.

Definition genericResult (results : list result) : option error :=
  match truncateToOne results with
  | Some e =>
      Some (errors_New ("Not all devices could be processed! Nested errors are: "
                        +:+ Error e))
  | None => None
  end.

(** [getNameToAinTable]: one assignment [table[dev.Name] = ...] per
    device, in the order of the listing. *)
Definition nameToAinTable (devs : list Device) : gmap string string :=
  foldl (λ table dev, <[Name dev := ReplaceByte (Identifier dev) " " ""]> table)
        ∅ devs.

(** [devList] is dereferenced only when [err] is nil, and [ListDevices]
    then returns the address of a local: the nil case of the match is
    the nil dereference Go would panic on, which no run reaches (lemma
    [ListDevices_pointer] below). *)
Definition getNameToAinTable : M (option (gmap string string) * option error) :=
  '(devList, err) ← ListDevices;
  match err with
  | Some e => mret (None, Some e)
  | None =>
      match devList with
      | Some dl => mret (Some (nameToAinTable (Devices dl)), None)
      | None => mret (None, Some (errors_New "invalid memory address or nil pointer dereference"))
      end
  end.

(** The loop of [buildBacklog] over [names], [targets] being the map
    built so far. *)
Fixpoint buildBacklog_loop (namesAndAins : gmap string string)
    (workFactory : string → Work) (names : list string)
    (targets : gmap string Work) : option (gmap string Work) * option error :=
  match names with
  | [] => (Some targets, None)
  | name :: rest =>
      let ain := default "" (namesAndAins !! name) in
      let ok := bool_decide (is_Some (namesAndAins !! name)) in
      if String.eqb ain "" || negb ok then
        let quoted := stringutils.Quote quote (stringutils.StringKeys range namesAndAins) in
        (None, Some (errors_New ("No device found with name '" +:+ name +:+
                                 "'. Available devices are " +:+ Join quoted ", ")))
      else
        buildBacklog_loop namesAndAins workFactory rest
                          (<[name := workFactory ain]> targets)
  end.

(** Reading a nil map gives the zero value, as reading the empty map. *)
Definition buildBacklog (names : list string) (workFactory : string → Work)
  : M (option (gmap string Work) * option error) :=
  '(namesAndAins, err) ← getNameToAinTable;
  match err with
  | Some e => mret (None, Some e)
  | None => mret (buildBacklog_loop (default ∅ namesAndAins) workFactory names ∅)
  end.

(** Modelled from the spec: the classification step of [scatterGather]
    (package [fritz], outside the sources verified here). The spec: an
    outcome with no error goes to the success handler, an outcome with
    an error to the error handler. *)
Definition classify (onSuccess : string → string → M result)
    (onError : string → string → error → M result)
    (key : string) (outcome : string * option error) : M result :=
  match outcome.2 with
  | None => onSuccess key outcome.1
  | Some e => onError key outcome.1 e
  end.

(** Modelled from the spec: [scatterGather] (package [fritz]) is outside
    the sources verified here. The spec: every target's callable is
    invoked, each result is classified by the success or the error
    handler, and all outcomes are gathered before the call returns, in
    completion order. The model runs the callables one after the other
    in the order [range] gives, one of the interleavings in which no two
    exchanges overlap. *)
Definition scatterGather (workTable : gmap string Work)
    (onSuccess : string → string → M result)
    (onError : string → string → error → M result) : M (list result) :=
  mapM (λ kw : string * Work,
          outcome ← kw.2;
          classify onSuccess onError kw.1 outcome)
       (range_of range workTable).

Definition doConcurrently (workFactory : string → Work) (names : list string)
  : M (option error) :=
  '(targets, err) ← buildBacklog names workFactory;
  match err with
  | Some e => mret (Some e)
  | None =>
      results ← scatterGather (default ∅ targets)
                              genericSuccessHandler genericErrorHandler;
      mret (genericResult results)
  end.

Definition SwitchOn (names : list string) : M (option error) :=
  doConcurrently (λ ain, switchForAin ain "setswitchon") names.

Definition SwitchOff (names : list string) : M (option error) :=
  doConcurrently (λ ain, switchForAin ain "setswitchoff") names.

Definition Toggle (names : list string) : M (option error) :=
  doConcurrently (λ ain, toggleForAin ain) names.

Definition Temperature (value : float64) (names : list string) : M (option error) :=
  doConcurrently (λ ain, temperatureForAin ain value) names.

(** The four dispatches of the [Fritz] interface. *)
Inductive Command : Type :=
| switch_on
| switch_off
| toggle
| set_temperature (value : float64).

Definition dispatch (c : Command) (names : list string) : M (option error) :=
  match c with
  | switch_on => SwitchOn names
  | switch_off => SwitchOff names
  | toggle => Toggle names
  | set_temperature value => Temperature value names
  end.

(** The work factory each dispatch hands to [doConcurrently]. *)
Definition workFactory_of (c : Command) : string → Work :=
  match c with
  | switch_on => λ ain, switchForAin ain "setswitchon"
  | switch_off => λ ain, switchForAin ain "setswitchoff"
  | toggle => λ ain, toggleForAin ain
  | set_temperature value => λ ain, temperatureForAin ain value
  end.

(** The request of the directory fetch. *)
Definition listing_url : string := url_get "getdevicelistinfos".

(** The text [genericErrorHandler] wraps an error in. *)
Definition wrapped (key : string) (e : error) : string :=
  "error toggling device '" +:+ key +:+ "': " +:+ Error e.

(** The last device of a listing that carries the name [name]. *)
Definition last_named (name : string) (devs : list Device) : option Device :=
  last (filter (λ dev, Name dev = name) devs).

(** A requested name is unresolved when the directory has no entry for it
    or maps it to the empty address. *)
Definition unresolved (table : gmap string string) (name : string) : Prop :=
  table !! name = None ∨ table !! name = Some "".

(** A requested name resolves when the directory maps it to a non-empty
    address. *)
Definition resolves (table : gmap string string) (name : string) : Prop :=
  ∃ ain, table !! name = Some ain ∧ ain ≠ "".

End Fritz.

(** ** The spec's reading of the address clean-up *)

(** ASCII white space, as [unicode.IsSpace] has it below U+0080. *)
Definition isSpace (c : ascii) : bool :=
  match nat_of_ascii c with
  | 9 | 10 | 11 | 12 | 13 | 32 => true
  | _ => false
  end.

(** The spec's words, "stripping all whitespace from each device's raw
    address field": every white-space character removed. *)
Fixpoint removeWhitespace (s : string) : string :=
  match s with
  | EmptyString => EmptyString
  | String c rest =>
      if isSpace c then removeWhitespace rest
      else String c (removeWhitespace rest)
  end.

(** ** A concrete gateway, after the scenario of the spec *)

Module Scenario.
Definition box : fritzImpl :=
  UsingClient {| client_Config := {| Protocol := "https";
                                     Host := "fritz.box";
                                     Port := "443" |};
                 client_SessionInfo := {| SID := "0123456789abcdef" |} |}.

(** The body of a response stands for the response. *)
Definition Response : Type := string.

(** Every request is answered, with the body "1". *)
Definition answers (t : Trace) (url : string) : Response + error := inl "1".

(** The first request is answered, every later one times out. *)
Definition first_only (t : Trace) (url : string) : Response + error :=
  match t with
  | [] => inl "1"
  | _ :: _ => inr (errors_New "timeout")
  end.

(** No request is answered. *)
Definition unreachable (t : Trace) (url : string) : Response + error :=
  inr (errors_New "dial tcp: no route to host").

(** The decoder finds [listing] in the body, and fails with [e] if
    [e] is an error. *)
Definition decode (listing : list Device) (e : option error)
    (r : Response) : Devicelist * option error :=
  ({| Devices := listing |}, e).

Definition read (r : Response + error) : string * option error :=
  match r with
  | inl body => (body, None)
  | inr e => ("", Some e)
  end.

Definition quote (s : string) : string := "'" +:+ s +:+ "'".

Definition in_order : MapRange :=
  {| range_of := λ V m, map_to_list m;
     range_perm := λ V m, reflexivity (map_to_list m) |}.

(** [strings.TrimSpace] on ASCII text. *)
Fixpoint trimLeft (s : string) : string :=
  match s with
  | EmptyString => EmptyString
  | String c rest => if isSpace c then trimLeft rest else s
  end.

Definition reverse_string (s : string) : string :=
  string_of_list_ascii (rev (list_ascii_of_string s)).

Definition trim (s : string) : string :=
  reverse_string (trimLeft (reverse_string (trimLeft s))).

(** What the conversion of NaN or an infinity to [int] gives on amd64. *)
Definition nonfinite (v : Float64.float64) : Z := (-9223372036854775808)%Z.

Definition Lamp : Device := {| Name := "Lamp"; Identifier := "11 657 0018736" |}.
Definition Plug : Device := {| Name := "Plug"; Identifier := "11 657 0018737" |}.
Definition listing : list Device := [Lamp; Plug].

(** A device whose address field holds a tabulator. *)
Definition Tabbed : Device :=
  {| Name := "Lamp"; Identifier := String "1" (String "009" "657") |}.

(** A device listed with a blank address field. *)
Definition Ghost : Device := {| Name := "Ghost"; Identifier := "   " |}.

(** Two devices under one name. *)
Definition Twin : Device := {| Name := "Lamp"; Identifier := "11 657 0099999" |}.

Definition decoded : Response → Devicelist * option error := decode listing None.

(** The dispatches against the gateway of the scenario. *)
Definition run (c : Command) (names : list string) : M (option error) :=
  dispatch Response answers decoded read trim quote in_order nonfinite box
           c names.
End Scenario.

(** ** Notions used to state further properties *)

(** The text [sub] occurs in the text [s]. *)
Definition contains (s sub : string) : Prop :=
  ∃ pre post, s = pre +:+ sub +:+ post.

(** The bytes of a text. *)
Definition bytes (s : string) : list ascii := list_ascii_of_string s.

(** The [switchcmd] each dispatch puts in its requests. *)
Definition switchcmd_of (c : Command) : string :=
  match c with
  | switch_on => "setswitchon"
  | switch_off => "setswitchoff"
  | toggle => "setswitchtoggle"
  | set_temperature _ => "sethkrtsoll"
  end.

(** The request the callable of a dispatch sends for the address [ain]. *)
Definition command_url (Round_nonfinite : Float64.float64 → Z) (fritz : fritzImpl)
    (c : Command) (ain : string) : string :=
  match c with
  | switch_on => url_getWithAin fritz ain "setswitchon"
  | switch_off => url_getWithAin fritz ain "setswitchoff"
  | toggle => url_getWithAin fritz ain "setswitchtoggle"
  | set_temperature value =>
      url_getWithAinAndParam fritz ain "sethkrtsoll"
        (Sprintf_d (math.Round Round_nonfinite (Float64.mul two value)))
  end.

(** * Properties *)

(** ** The trace monad *)

Lemma mapM_length {A B} (f : A → M B) (l : list A) (t : Trace) :
  length (mapM f l t).1 = length l.
Proof.
  revert t. induction l as [|a l IH]; intros t; [reflexivity|].
  cbn [mapM]. unfold mbind, M_bind, mret, M_ret.
  destruct (f a t) as [b t1]. specialize (IH t1).
  destruct (mapM f l t1) as [bs t2]. cbn in *. by rewrite IH.
Qed.

(** ** Strings *)

Lemma ReplaceByte_empty_filter (s : string) (old : ascii) :
  list_ascii_of_string (ReplaceByte s old "")
  = filter (λ c, c ≠ old) (list_ascii_of_string s).
Proof.
  induction s as [|c s IH]; [reflexivity|].
  cbn [ReplaceByte list_ascii_of_string].
  destruct (Ascii.eqb_spec c old) as [->|Hne].
  - rewrite filter_cons_False by (intros H; by apply H). exact IH.
  - rewrite filter_cons_True by done. cbn. by rewrite IH.
Qed.

(** ** The aggregator *)

Section Aggregator.

Lemma truncateToOne_errs_omap (results : list result) :
  truncateToOne_errs results = omap err results.
Proof.
  unfold truncateToOne_errs.
  enough (∀ acc, foldl (λ errs res, match err res with
                                    | Some e => errs ++ [e]
                                    | None => errs
                                    end) acc results
                 = acc ++ omap err results) as H by apply (H []).
  induction results as [|r results IH]; intros acc; cbn.
  - by rewrite app_nil_r.
  - rewrite IH. destruct (err r); [|done]. by rewrite <- app_assoc.
Qed.

Lemma truncateToOne_spec (results : list result) :
  truncateToOne results
  = match omap err results with
    | [] => None
    | errs => Some (errors_New (Join (Error <$> errs) "; "))
    end.
Proof.
  unfold truncateToOne. rewrite truncateToOne_errs_omap.
  by destruct (omap err results).
Qed.

Lemma omap_err_nil (results : list result) :
  omap err results = [] ↔ Forall (λ r, err r = None) results.
Proof.
  induction results as [|r results IH]; cbn.
  - split; [constructor|done].
  - destruct (err r) eqn:Hr.
    + split; [done|]. intros H. inversion H; congruence.
    + rewrite IH. split; [by constructor|]. intros H. by inversion H.
Qed.

End Aggregator.

(** C4. [genericResult] returns no error exactly when no outcome of the
    batch carries an error: it returns nil on every batch whose outcomes
    all have a nil error, and a non-nil combined error on every batch
    with at least one error. *)
Theorem genericResult_nil_iff (results : list result) :
  (genericResult results = None ↔ Forall (λ r, err r = None) results)
  ∧ (is_Some (genericResult results) ↔ Exists (λ r, err r ≠ None) results).
Proof.
  assert (genericResult results = None ↔ Forall (λ r, err r = None) results) as H.
  { unfold genericResult. rewrite truncateToOne_spec, <- omap_err_nil.
    by destruct (omap err results). }
  split; [exact H|].
  rewrite <- not_eq_None_Some, H, <- omap_err_nil. clear H.
  induction results as [|r results IH]; cbn.
  - split; [done|]. intros Hex. inversion Hex.
  - destruct (err r) eqn:Hr.
    + split; [|done]. intros _. left. congruence.
    + rewrite IH. split; [by right|].
      intros Hex. inversion Hex; subst; [congruence|done].
Qed.

Lemma genericResult_spec (results : list result) :
  genericResult results
  = match omap err results with
    | [] => None
    | errs => Some (errors_New
                ("Not all devices could be processed! Nested errors are: "
                 +:+ Join (Error <$> errs) "; "))
    end.
Proof.
  unfold genericResult. rewrite truncateToOne_spec.
  by destruct (omap err results).
Qed.

Lemma omap_err_Exists (results : list result) :
  Exists (λ r, err r ≠ None) results → omap err results ≠ [].
Proof.
  intros Hex Hnil. apply omap_err_nil in Hnil.
  apply Exists_exists in Hex as (r & Hin & Hr).
  rewrite Forall_forall in Hnil. eauto.
Qed.

(** C3. The error handler wraps the error of an outcome as
    "error toggling device '<name>': <original message>", whatever the
    command; and on every batch with at least one error [genericResult]
    returns the messages of the batch's errors, in order, joined with
    "; " and prefixed with "Not all devices could be processed! Nested
    errors are: ". *)
Theorem genericResult_wrapped_joined (results : list result) :
  (∀ key message e t,
      (genericErrorHandler key message e t).1
      = {| msg := message;
           err := Some (errors_New ("error toggling device '" +:+ key +:+
                                    "': " +:+ Error e)) |})
  ∧ (Exists (λ r, err r ≠ None) results →
     genericResult results
     = Some (errors_New
               ("Not all devices could be processed! Nested errors are: "
                +:+ Join (Error <$> omap err results) "; "))).
Proof.
  split; [reflexivity|].
  intros Hex. rewrite genericResult_spec.
  apply omap_err_Exists in Hex. by destruct (omap err results).
Qed.

(** The same on a batch of raw outcomes: when each is classified by the
    handlers, the combined error lists the wrapped text of every failing
    outcome. *)
Section Batch.
Variable TrimSpace : string → string.

Lemma classify_err key (outcome : string * option error) t :
  err (classify (genericSuccessHandler TrimSpace) genericErrorHandler
                key outcome t).1
  = (λ e, errors_New (wrapped key e)) <$> outcome.2.
Proof. destruct outcome as [m [e|]]; reflexivity. Qed.

Lemma mapM_classify_errs outs t :
  omap err (mapM (λ o, classify (genericSuccessHandler TrimSpace)
                                genericErrorHandler o.1 o.2) outs t).1
  = (λ ke, errors_New (wrapped ke.1 ke.2)) <$> failures outs.
Proof.
  revert t. induction outs as [|o outs IH]; intros t; [reflexivity|].
  cbn [mapM]. unfold mbind, M_bind, mret, M_ret.
  pose proof (classify_err o.1 o.2 t) as Hc.
  destruct (classify _ _ o.1 o.2 t) as [r t1]. specialize (IH t1).
  destruct (mapM _ outs t1) as [rs t2]. cbn in *.
  unfold failures. cbn. fold (failures outs).
  rewrite Hc, IH. by destruct (o.2.2).
Qed.

Lemma genericResult_batch outs t :
  failures outs ≠ [] →
  genericResult (mapM (λ o, classify (genericSuccessHandler TrimSpace)
                                     genericErrorHandler o.1 o.2) outs t).1
  = Some (errors_New
            ("Not all devices could be processed! Nested errors are: "
             +:+ Join ((λ ke, wrapped ke.1 ke.2) <$> failures outs) "; ")).
Proof.
  intros Hne. rewrite genericResult_spec, mapM_classify_errs.
  destruct (failures outs) as [|ke l]; [done|].
  rewrite fmap_cons. do 3 f_equal.
  rewrite !fmap_cons. do 2 f_equal. symmetry.
  apply (list_fmap_compose (λ ke0 : string * error, errors_New (wrapped ke0.1 ke0.2)) Error).
Qed.
End Batch.

(** ** The device directory *)

Section Directory.
Context (Response : Type)
        (HTTPClient_Get : Trace → string → Response + error)
        (xml_Decode : Response → Devicelist * option error)
        (fritz : fritzImpl).

#[local] Abbreviation ListDevices_ := (ListDevices Response HTTPClient_Get xml_Decode fritz).
#[local] Abbreviation getNameToAinTable_ :=
  (getNameToAinTable Response HTTPClient_Get xml_Decode fritz).
#[local] Abbreviation listing_url_ := (listing_url fritz).

Lemma ListDevices_trace t : (ListDevices_ t).2 = t ++ [HTTPGet listing_url_].
Proof.
  unfold ListDevices, get, HTTPClient_Get_url, mbind, M_bind.
  destruct (HTTPClient_Get t _) as [response|e]; [|reflexivity].
  by destruct (xml_Decode response).
Qed.

(** [ListDevices] never returns a nil pointer with a nil error. *)
Lemma ListDevices_pointer t :
  (ListDevices_ t).1.2 = None → is_Some (ListDevices_ t).1.1.
Proof.
  unfold ListDevices, get, HTTPClient_Get_url, mbind, M_bind.
  destruct (HTTPClient_Get t _) as [response|e]; [|done].
  destruct (xml_Decode response). cbn. eauto.
Qed.

Lemma getNameToAinTable_err t e :
  (ListDevices_ t).1.2 = Some e →
  getNameToAinTable_ t = ((None, Some e), t ++ [HTTPGet listing_url_]).
Proof.
  intros He. pose proof (ListDevices_trace t) as Ht.
  unfold getNameToAinTable, mbind, M_bind.
  destruct (ListDevices_ t) as [[devList err0] t']. cbn in *. by subst.
Qed.

Lemma getNameToAinTable_ok t dl :
  (ListDevices_ t).1 = (Some dl, None) →
  getNameToAinTable_ t
  = ((Some (nameToAinTable (Devices dl)), None), t ++ [HTTPGet listing_url_]).
Proof.
  intros He. pose proof (ListDevices_trace t) as Ht.
  unfold getNameToAinTable, mbind, M_bind.
  destruct (ListDevices_ t) as [[devList err0] t']. cbn in *.
  by simplify_eq.
Qed.
End Directory.

Lemma last_named_snoc name devs dev :
  last_named name (devs ++ [dev])
  = if decide (Name dev = name) then Some dev else last_named name devs.
Proof.
  unfold last_named. rewrite filter_app, filter_cons, filter_nil.
  destruct (decide (Name dev = name)) as [Heq|Hne].
  - apply last_snoc.
  - by rewrite app_nil_r.
Qed.

(** The entry of a name is made from the last device that carries it. *)
Lemma nameToAinTable_lookup devs name :
  nameToAinTable devs !! name
  = (λ dev, ReplaceByte (Identifier dev) " " "") <$> last_named name devs.
Proof.
  induction devs as [|dev devs IH] using rev_ind; [reflexivity|].
  unfold nameToAinTable. rewrite foldl_app. cbn [foldl].
  fold (nameToAinTable devs). rewrite last_named_snoc.
  destruct (decide (Name dev = name)) as [<-|Hne].
  - by rewrite lookup_insert_eq.
  - by rewrite lookup_insert_ne.
Qed.

Lemma last_named_elem name devs dev :
  last_named name devs = Some dev → dev ∈ devs ∧ Name dev = name.
Proof.
  unfold last_named. intros H.
  apply last_Some_elem_of in H. by apply list_elem_of_filter in H as [? ?].
Qed.

Lemma last_named_is_Some name devs :
  (∃ dev, dev ∈ devs ∧ Name dev = name) → is_Some (last_named name devs).
Proof.
  intros (dev & Hin & Heq). unfold last_named.
  assert (dev ∈ filter (λ d, Name d = name) devs) as Hf
    by (apply list_elem_of_filter; done).
  destruct (filter _ devs) as [|d l] using rev_ind.
  - by apply elem_of_nil in Hf.
  - rewrite last_snoc. eauto.
Qed.

Lemma last_named_last pre dev post :
  Forall (λ d, Name d ≠ Name dev) post →
  last_named (Name dev) (pre ++ dev :: post) = Some dev.
Proof.
  intros Hpost. unfold last_named.
  rewrite filter_app, filter_cons, decide_True by done.
  assert (filter (λ d, Name d = Name dev) post = []) as ->.
  { induction Hpost as [|d l Hd _ IH]; [done|].
    by rewrite filter_cons, decide_False. }
  apply last_snoc.
Qed.

(** C8. A listing with several devices under one name gives a mapping
    with one entry for the name, holding the address of the device that
    comes last in the listing; the keys of the mapping are pairwise
    distinct in whatever order they are ranged over. *)
Theorem nameToAinTable_last_wins (range : MapRange)
    (pre post : list Device) (dev : Device) :
  Forall (λ d, Name d ≠ Name dev) post →
  nameToAinTable (pre ++ dev :: post) !! Name dev
  = Some (ReplaceByte (Identifier dev) " " "")
  ∧ NoDup (stringutils.StringKeys range (nameToAinTable (pre ++ dev :: post))).
Proof.
  intros Hpost. split.
  - by rewrite nameToAinTable_lookup, last_named_last.
  - unfold stringutils.StringKeys.
    rewrite (range_perm range). apply NoDup_fst_map_to_list.
Qed.

Lemma nameToAinTable_last_wins_witness :
  nameToAinTable ([Scenario.Lamp] ++ Scenario.Twin :: [Scenario.Plug]) !! "Lamp"
  = Some "116570099999"
  ∧ NoDup (stringutils.StringKeys Scenario.in_order
             (nameToAinTable ([Scenario.Lamp] ++ Scenario.Twin :: [Scenario.Plug]))).
Proof.
  apply (nameToAinTable_last_wins Scenario.in_order
           [Scenario.Lamp] [Scenario.Plug] Scenario.Twin).
  repeat constructor. cbn. discriminate.
Defined.

Section Dispatch.
Context (Response : Type)
        (HTTPClient_Get : Trace → string → Response + error)
        (xml_Decode : Response → Devicelist * option error)
        (ReadFullyString : Response + error → string * option error)
        (TrimSpace quote : string → string)
        (range : MapRange)
        (Round_nonfinite : Float64.float64 → Z)
        (fritz : fritzImpl).

#[local] Abbreviation ListDevices_ :=
  (ListDevices Response HTTPClient_Get xml_Decode fritz).
#[local] Abbreviation getNameToAinTable_ :=
  (getNameToAinTable Response HTTPClient_Get xml_Decode fritz).
#[local] Abbreviation buildBacklog_ :=
  (buildBacklog Response HTTPClient_Get xml_Decode quote range fritz).
#[local] Abbreviation doConcurrently_ :=
  (doConcurrently Response HTTPClient_Get xml_Decode TrimSpace quote range fritz).
#[local] Abbreviation dispatch_ :=
  (dispatch Response HTTPClient_Get xml_Decode ReadFullyString TrimSpace quote
            range Round_nonfinite fritz).
#[local] Abbreviation workFactory_of_ :=
  (workFactory_of Response HTTPClient_Get ReadFullyString Round_nonfinite fritz).

Lemma dispatch_doConcurrently c names :
  dispatch_ c names = doConcurrently_ (workFactory_of_ c) names.
Proof. by destruct c. Qed.

(** C10. When the listing request is answered and the decoder fails on
    the answer, [ListDevices] returns the address of the device list (a
    non-nil pointer) together with the decoder's error. *)
Theorem ListDevices_decode_error t response deviceList errDecode :
  HTTPClient_Get t (listing_url fritz) = inl response →
  xml_Decode response = (deviceList, Some errDecode) →
  (ListDevices Response HTTPClient_Get xml_Decode fritz t).1 = (Some deviceList, Some errDecode).
Proof.
  intros Hget Hdec.
  unfold ListDevices, get, HTTPClient_Get_url, mbind, M_bind.
  unfold listing_url in Hget. by rewrite Hget, Hdec.
Qed.

Lemma buildBacklog_err names workFactory t e :
  (ListDevices_ t).1.2 = Some e →
  buildBacklog_ names workFactory t
  = ((None, Some e), t ++ [HTTPGet (listing_url fritz)]).
Proof.
  intros He. unfold buildBacklog, mbind, M_bind.
  by rewrite (getNameToAinTable_err _ _ _ _ _ _ He).
Qed.

Lemma doConcurrently_err names workFactory t e :
  (ListDevices_ t).1.2 = Some e →
  doConcurrently_ workFactory names t
  = (Some e, t ++ [HTTPGet (listing_url fritz)]).
Proof.
  intros He. unfold doConcurrently, mbind, M_bind.
  by rewrite (buildBacklog_err _ _ _ _ He).
Qed.

(** C2. When the directory fetch fails with an error (the listing
    request or the decoding of its answer), every dispatch returns that
    very error, [buildBacklog] returns no target map, and the trace grows
    by the listing request alone: no command request is sent. *)
Theorem dispatch_directory_failure c names t e :
  (ListDevices Response HTTPClient_Get xml_Decode fritz t).1.2 = Some e →
  buildBacklog Response HTTPClient_Get xml_Decode quote range fritz
      names (workFactory_of Response HTTPClient_Get ReadFullyString Round_nonfinite fritz c) t
  = ((None, Some e), t ++ [HTTPGet (listing_url fritz)])
  ∧ dispatch Response HTTPClient_Get xml_Decode ReadFullyString TrimSpace quote
             range Round_nonfinite fritz c names t = (Some e, t ++ [HTTPGet (listing_url fritz)]).
Proof.
  intros He. split.
  - by apply buildBacklog_err.
  - rewrite dispatch_doConcurrently. by apply doConcurrently_err.
Qed.

(** *** Building the targets *)

Lemma resolves_or_unresolved table name :
  resolves table name ∨ unresolved table name.
Proof.
  unfold resolves, unresolved. destruct (table !! name) as [ain|]; [|by auto].
  destruct (decide (ain = "")) as [->|Hne]; [by auto|]. left. eauto.
Qed.

Lemma resolves_not_unresolved table name :
  resolves table name → ¬ unresolved table name.
Proof. intros (ain & Hain & Hne) [H|H]; congruence. Qed.

Lemma buildBacklog_guard_resolves table name :
  resolves table name →
  String.eqb (default "" (table !! name)) ""
  || negb (bool_decide (is_Some (table !! name))) = false.
Proof.
  intros (ain & -> & Hne). cbn.
  apply String.eqb_neq in Hne. by rewrite Hne.
Qed.

Lemma buildBacklog_guard_unresolved table name :
  unresolved table name →
  String.eqb (default "" (table !! name)) ""
  || negb (bool_decide (is_Some (table !! name))) = true.
Proof. by intros [->| ->]. Qed.

(** All names resolve: the loop assigns one target per name, in order. *)
Lemma buildBacklog_loop_resolved table workFactory names targets :
  Forall (resolves table) names →
  buildBacklog_loop quote range table workFactory names targets
  = (Some (foldl (λ tg name, <[name := workFactory (default "" (table !! name))]> tg)
                 targets names), None).
Proof.
  intros Hall. revert targets.
  induction Hall as [|name names Hname _ IH]; intros targets; [reflexivity|].
  cbn [buildBacklog_loop foldl].
  by rewrite (buildBacklog_guard_resolves _ _ Hname), IH.
Qed.

(** Some name is unresolved: the loop stops at the first such name and
    returns the error that names it. *)
Lemma buildBacklog_loop_unresolved table workFactory names targets :
  Exists (unresolved table) names →
  ∃ pre name post,
    names = pre ++ name :: post
    ∧ Forall (resolves table) pre
    ∧ unresolved table name
    ∧ buildBacklog_loop quote range table workFactory names targets
      = (None, Some (errors_New
           ("No device found with name '" +:+ name +:+
            "'. Available devices are " +:+
            Join (quote <$> stringutils.StringKeys range table) ", "))).
Proof.
  intros Hex. revert targets.
  induction names as [|name names IH]; intros targets; [by inversion Hex|].
  destruct (resolves_or_unresolved table name) as [Hres|Hun].
  - assert (Exists (unresolved table) names) as Hex'.
    { inversion Hex; subst; [|done].
      by destruct (resolves_not_unresolved _ _ Hres). }
    destruct (IH Hex' (<[name := workFactory (default "" (table !! name))]> targets))
      as (pre & bad & post & -> & Hpre & Hbad & Hloop).
    exists (name :: pre), bad, post. repeat split; [by constructor|done|].
    cbn [buildBacklog_loop app].
    by rewrite (buildBacklog_guard_resolves _ _ Hres).
  - exists [], name, names. repeat split; [constructor|done|].
    cbn [buildBacklog_loop].
    by rewrite (buildBacklog_guard_unresolved _ _ Hun).
Qed.

Lemma buildBacklog_ok names workFactory t dl :
  (ListDevices_ t).1 = (Some dl, None) →
  buildBacklog_ names workFactory t
  = (buildBacklog_loop quote range (nameToAinTable (Devices dl))
                       workFactory names ∅,
     t ++ [HTTPGet (listing_url fritz)]).
Proof.
  intros Hok. unfold buildBacklog, mbind, M_bind.
  by rewrite (getNameToAinTable_ok _ _ _ _ _ _ Hok).
Qed.

Lemma foldl_insert_dom {V} (f : string → V) names (targets : gmap string V) :
  dom (foldl (λ tg name, <[name := f name]> tg) targets names)
  = dom targets ∪ list_to_set names.
Proof.
  revert targets. induction names as [|name names IH]; intros targets; cbn.
  - by rewrite union_empty_r_L.
  - rewrite IH, dom_insert_L.
    by rewrite (comm_L (∪) {[name]} (dom targets)), (assoc_L (∪)).
Qed.

Lemma scatterGather_length (workTable : gmap string Work) onSuccess onError t :
  length (scatterGather range workTable onSuccess onError t).1 = size workTable.
Proof.
  unfold scatterGather. rewrite mapM_length.
  rewrite (range_perm range). apply length_map_to_list.
Qed.

(** C1. When the directory was fetched and some requested name is
    unresolved (absent from the mapping, or mapped to the empty address),
    every dispatch returns the error "No device found with name
    '<name>'. Available devices are ..." for an unresolved name of the
    list, the first one, followed by every key of the mapping, each
    quoted, joined with ", "; and the trace grows by the listing request
    alone, so no target's callable has run. *)
Theorem dispatch_unknown_device c names t dl :
  (ListDevices Response HTTPClient_Get xml_Decode fritz t).1 = (Some dl, None) →
  Exists (unresolved (nameToAinTable (Devices dl))) names →
  ∃ pre name post known,
    names = pre ++ name :: post
    ∧ Forall (resolves (nameToAinTable (Devices dl))) pre
    ∧ unresolved (nameToAinTable (Devices dl)) name
    ∧ known ≡ₚ (map_to_list (nameToAinTable (Devices dl))).*1
    ∧ dispatch Response HTTPClient_Get xml_Decode ReadFullyString TrimSpace quote
             range Round_nonfinite fritz c names t
      = (Some (errors_New
                 ("No device found with name '" +:+ name +:+
                  "'. Available devices are " +:+
                  Join (quote <$> known) ", ")),
         t ++ [HTTPGet (listing_url fritz)]).
Proof.
  intros Hok Hex.
  destruct (buildBacklog_loop_unresolved _ (workFactory_of_ c) _ ∅ Hex)
    as (pre & name & post & Hnames & Hpre & Hname & Hloop).
  exists pre, name, post,
    (stringutils.StringKeys range (nameToAinTable (Devices dl))).
  repeat split; [done..| |].
  - unfold stringutils.StringKeys. by rewrite (range_perm range).
  - rewrite dispatch_doConcurrently. unfold doConcurrently, mbind, M_bind.
    by rewrite (buildBacklog_ok _ _ _ _ Hok), Hloop.
Qed.

(** C7, as the code has it. When the directory was fetched and every
    requested name resolves, [buildBacklog] returns one target per
    distinct requested name (the targets are a map keyed by name), and
    the batch of outcomes gathered from them has as many outcomes as
    there are distinct names in the list: the length of the list when no
    name is repeated. *)
Theorem outcomes_per_distinct_name workFactory names t dl :
  (ListDevices Response HTTPClient_Get xml_Decode fritz t).1 = (Some dl, None) →
  Forall (resolves (nameToAinTable (Devices dl))) names →
  ∃ targets,
    buildBacklog Response HTTPClient_Get xml_Decode quote range fritz
      names workFactory t
    = ((Some targets, None), t ++ [HTTPGet (listing_url fritz)])
    ∧ dom targets = list_to_set names
    ∧ (∀ t', length (scatterGather range targets
                       (genericSuccessHandler TrimSpace) genericErrorHandler t').1
             = length (remove_dups names))
    ∧ (NoDup names → size targets = length names).
Proof.
  intros Hok Hall. eexists. split.
  { rewrite (buildBacklog_ok _ _ _ _ Hok).
    by rewrite (buildBacklog_loop_resolved _ _ _ _ Hall). }
  set (table := nameToAinTable (Devices dl)).
  assert (dom (foldl (λ tg name,
                        <[name := workFactory (default "" (table !! name))]> tg)
                     (∅ : gmap string Work) names)
          = (list_to_set names : gset string)) as Hdom.
  { rewrite (foldl_insert_dom (λ name, workFactory (default "" (table !! name)))).
    by rewrite dom_empty_L, union_empty_l_L. }
  assert (∀ l : list string, size (list_to_set (C:=gset string) l)
                             = length (remove_dups l)) as Hsize.
  { intros l.
    assert (list_to_set (C:=gset string) l = list_to_set (remove_dups l)) as ->.
    { apply set_eq. intros x.
      by rewrite !elem_of_list_to_set, elem_of_remove_dups. }
    apply size_list_to_set, NoDup_remove_dups. }
  split; [exact Hdom|]. split.
  - intros t'. by rewrite scatterGather_length, <- size_dom, Hdom.
  - intros Hnd. rewrite <- size_dom, Hdom. by apply size_list_to_set.
Qed.

(** C6, as the code has it. When the listing was fetched and decoded,
    the mapping has an entry for the name of every device, and every
    entry is the raw address field of a device of that name with its
    space characters (the byte 0x20, and no other byte) removed. *)
Theorem getNameToAinTable_strips_spaces t dl :
  (ListDevices Response HTTPClient_Get xml_Decode fritz t).1 = (Some dl, None) →
  ∃ table,
    (getNameToAinTable Response HTTPClient_Get xml_Decode fritz t).1
    = (Some table, None)
    ∧ (∀ dev, dev ∈ Devices dl → is_Some (table !! Name dev))
    ∧ (∀ name ain, table !! name = Some ain →
         ∃ dev, dev ∈ Devices dl ∧ Name dev = name
                ∧ ain = ReplaceByte (Identifier dev) " " ""
                ∧ list_ascii_of_string ain
                  = filter (λ c, c ≠ " "%char)
                           (list_ascii_of_string (Identifier dev))).
Proof.
  intros Hok. exists (nameToAinTable (Devices dl)). split.
  { by rewrite (getNameToAinTable_ok _ _ _ _ _ _ Hok). }
  split.
  - intros dev Hin. rewrite nameToAinTable_lookup.
    destruct (last_named_is_Some (Name dev) (Devices dl)) as [d ->]; [|by eauto].
    by exists dev.
  - intros name ain. rewrite nameToAinTable_lookup.
    destruct (last_named name (Devices dl)) as [dev|] eqn:Hlast; [|done].
    intros [= <-]. apply last_named_elem in Hlast as [Hin Hname].
    exists dev. repeat split; [done..|]. apply ReplaceByte_empty_filter.
Qed.

End Dispatch.

(** ** The properties at the gateway of the scenario *)

Lemma genericResult_wrapped_joined_witness :
  let results := [ {| msg := "1"; err := None |};
                   {| msg := ""; err := Some (errors_New "error toggling device 'Plug': timeout") |} ] in
  genericResult results
  = Some (errors_New "Not all devices could be processed! Nested errors are: error toggling device 'Plug': timeout").
Proof.
  intros results.
  apply (proj2 (genericResult_wrapped_joined results)).
  apply Exists_cons_tl, Exists_cons_hd. discriminate.
Defined.

Lemma ListDevices_decode_error_witness :
  (ListDevices Scenario.Response Scenario.answers
     (Scenario.decode [] (Some (errors_New "EOF"))) Scenario.box []).1
  = (Some {| Devices := [] |}, Some (errors_New "EOF")).
Proof.
  apply (ListDevices_decode_error Scenario.Response Scenario.answers
           (Scenario.decode [] (Some (errors_New "EOF"))) Scenario.box
           [] "1" {| Devices := [] |} (errors_New "EOF")); reflexivity.
Defined.

Lemma dispatch_directory_failure_witness :
  dispatch Scenario.Response Scenario.unreachable Scenario.decoded Scenario.read
           Scenario.trim Scenario.quote Scenario.in_order Scenario.nonfinite
           Scenario.box toggle ["Lamp"; "Plug"] []
  = (Some (errors_New "dial tcp: no route to host"),
     [HTTPGet "https://fritz.box:443//webservices/homeautoswitch.lua?switchcmd=getdevicelistinfos&sid=0123456789abcdef"]).
Proof.
  apply (dispatch_directory_failure Scenario.Response Scenario.unreachable
           Scenario.decoded Scenario.read Scenario.trim Scenario.quote
           Scenario.in_order Scenario.nonfinite Scenario.box
           toggle ["Lamp"; "Plug"] [] (errors_New "dial tcp: no route to host")).
  reflexivity.
Defined.

Lemma dispatch_unknown_device_witness :
  ∃ pre name post known,
    ["Lamp"; "Fan"] = pre ++ name :: post
    ∧ Forall (resolves (nameToAinTable Scenario.listing)) pre
    ∧ unresolved (nameToAinTable Scenario.listing) name
    ∧ known ≡ₚ (map_to_list (nameToAinTable Scenario.listing)).*1
    ∧ Scenario.run switch_on ["Lamp"; "Fan"] []
      = (Some (errors_New
                 ("No device found with name '" +:+ name +:+
                  "'. Available devices are " +:+
                  Join (Scenario.quote <$> known) ", ")),
         [] ++ [HTTPGet (listing_url Scenario.box)]).
Proof.
  apply (dispatch_unknown_device Scenario.Response Scenario.answers
           Scenario.decoded Scenario.read Scenario.trim Scenario.quote
           Scenario.in_order Scenario.nonfinite Scenario.box
           switch_on ["Lamp"; "Fan"] [] {| Devices := Scenario.listing |}).
  - reflexivity.
  - apply Exists_cons_tl, Exists_cons_hd. left. vm_compute. reflexivity.
Defined.

Lemma outcomes_per_distinct_name_witness :
  ∃ targets,
    buildBacklog Scenario.Response Scenario.answers Scenario.decoded
                 Scenario.quote Scenario.in_order Scenario.box
                 ["Lamp"; "Plug"; "Lamp"] (λ ain, mret (ain, None)) []
    = ((Some targets, None), [] ++ [HTTPGet (listing_url Scenario.box)])
    ∧ dom targets = list_to_set ["Lamp"; "Plug"; "Lamp"]
    ∧ (∀ t', length (scatterGather Scenario.in_order targets
                       (genericSuccessHandler Scenario.trim) genericErrorHandler t').1
             = length (remove_dups ["Lamp"; "Plug"; "Lamp"]))
    ∧ (NoDup ["Lamp"; "Plug"; "Lamp"] → size targets = length ["Lamp"; "Plug"; "Lamp"]).
Proof.
  apply (outcomes_per_distinct_name Scenario.Response Scenario.answers
           Scenario.decoded Scenario.trim Scenario.quote Scenario.in_order
           Scenario.box (λ ain, mret (ain, None)) ["Lamp"; "Plug"; "Lamp"] []
           {| Devices := Scenario.listing |}).
  - reflexivity.
  - repeat constructor; eexists; (split; [vm_compute; reflexivity|discriminate]).
Defined.

Lemma getNameToAinTable_strips_spaces_witness :
  ∃ table,
    (getNameToAinTable Scenario.Response Scenario.answers Scenario.decoded
                       Scenario.box []).1 = (Some table, None)
    ∧ (∀ dev, dev ∈ Scenario.listing → is_Some (table !! Name dev))
    ∧ (∀ name ain, table !! name = Some ain →
         ∃ dev, dev ∈ Scenario.listing ∧ Name dev = name
                ∧ ain = ReplaceByte (Identifier dev) " " ""
                ∧ list_ascii_of_string ain
                  = filter (λ c, c ≠ " "%char)
                           (list_ascii_of_string (Identifier dev))).
Proof.
  apply (getNameToAinTable_strips_spaces Scenario.Response Scenario.answers
           Scenario.decoded Scenario.box [] {| Devices := Scenario.listing |}).
  reflexivity.
Defined.

(** C6, read as the removal of all white space, fails: a tabulator in the address field is
    white space, and the mapping keeps it. *)
Lemma getNameToAinTable_keeps_tab :
  ∃ table,
    (getNameToAinTable Scenario.Response Scenario.answers
       (Scenario.decode [Scenario.Tabbed] None) Scenario.box []).1
    = (Some table, None)
    ∧ table !! "Lamp" = Some (String "1" (String "009" "657"))
    ∧ removeWhitespace (Identifier Scenario.Tabbed) = "1657"
    ∧ table !! "Lamp" ≠ Some (removeWhitespace (Identifier Scenario.Tabbed)).
Proof.
  eexists. split; [reflexivity|].
  split; [vm_compute; reflexivity|].
  split; [reflexivity|].
  vm_compute. discriminate.
Qed.

(** C7, read as one outcome per occurrence, fails: a name requested twice resolves both
    times, and gives one target, one outcome and one success event. *)
Lemma repeated_name_one_outcome :
  let names := ["Lamp"; "Lamp"] in
  let built := buildBacklog Scenario.Response Scenario.answers Scenario.decoded
                 Scenario.quote Scenario.in_order Scenario.box names
                 (workFactory_of Scenario.Response Scenario.answers Scenario.read
                                 Scenario.nonfinite Scenario.box switch_on) [] in
  Forall (resolves (nameToAinTable Scenario.listing)) names
  ∧ built.1.2 = None
  ∧ length (scatterGather Scenario.in_order (default ∅ built.1.1)
              (genericSuccessHandler Scenario.trim) genericErrorHandler built.2).1
    = 1
  ∧ length names = 2
  ∧ Scenario.run switch_on names []
    = (None,
       [HTTPGet "https://fritz.box:443//webservices/homeautoswitch.lua?switchcmd=getdevicelistinfos&sid=0123456789abcdef";
        HTTPGet "https://fritz.box:443//webservices/homeautoswitch.lua?ain=116570018736&switchcmd=setswitchon&sid=0123456789abcdef";
        LogSuccess "Successfully processed device 'Lamp'; response was: 1"]).
Proof.
  intros names built. split; [|split; [|split; [|split]]].
  - repeat constructor; eexists; (split; [vm_compute; reflexivity|discriminate]).
  - vm_compute. reflexivity.
  - vm_compute. reflexivity.
  - reflexivity.
  - vm_compute. reflexivity.
Qed.

(** ** Doubling and rounding a temperature *)

Section Doubling.
Import Floats.SpecFloat Float64.

(** The mantissa of [two] is 2^52: multiplying by it adds 52 digits. *)
Lemma digits2_pos_shift52 m :
  Zpos (digits2_pos (4503599627370496 * m)) = (52 + Zpos (digits2_pos m))%Z.
Proof.
  simpl. rewrite Pos.mul_1_l. change PosDef.Pos.succ with Pos.succ.
  rewrite !Pos2Z.inj_succ. lia.
Qed.

(** A binary64 is normal (53 digits) or subnormal (least exponent). *)
Lemma bounded_cases m e :
  bounded prec emax m e = true →
  (Zpos (digits2_pos m) = 53 ∧ -1074 ≤ e ≤ 971)%Z
  ∨ (Zpos (digits2_pos m) < 53 ∧ e = -1074)%Z.
Proof.
  unfold bounded, canonical_mantissa, fexp, emin, prec, emax.
  intros H. apply andb_prop in H as [H1 H2].
  apply Z.eqb_eq in H1. apply Z.leb_le in H2. lia.
Qed.

(** Shifting the product back loses no bit. *)
Lemma shr_exact_52 m e :
  shr (shr_record_of_loc (Zpos (4503599627370496 * m)) loc_Exact) e 52
  = ({| shr_m := Zpos m; shr_r := false; shr_s := false |}, (e + 52)%Z).
Proof. reflexivity. Qed.

Lemma shr_exact_51 m e :
  shr (shr_record_of_loc (Zpos (4503599627370496 * m)) loc_Exact) e 51
  = ({| shr_m := Zpos m~0; shr_r := false; shr_s := false |}, (e + 51)%Z).
Proof. reflexivity. Qed.

Lemma shr_fexp_canonical m e :
  (fexp prec emax (Zpos (digits2_pos m) + e) <= e)%Z →
  shr_fexp prec emax (Zpos m) e loc_Exact
  = ({| shr_m := Zpos m; shr_r := false; shr_s := false |}, e).
Proof.
  intros H. unfold shr_fexp, Zdigits2, shr.
  destruct (fexp prec emax (Z.pos (digits2_pos m) + e) - e)%Z eqn:Hn;
    [reflexivity|lia|reflexivity].
Qed.

(** [2 * value] on a finite value: the exponent grows by one (or the
    mantissa doubles, for a subnormal), and the product overflows to an
    infinity only past the largest exponent. *)
Lemma mul_two_finite s m e :
  bounded prec emax m e = true →
  mul two (S754_finite s m e)
  = if (Zpos (digits2_pos m) =? 53)%Z
    then (if (e + 1 <=? 971)%Z then S754_finite s m (e + 1) else S754_infinity s)
    else S754_finite s (m~0) e.
Proof.
  intros Hb. apply bounded_cases in Hb.
  unfold mul, two, SFmul. cbn [xorb].
  unfold binary_round_aux. unfold shr_fexp at 1. unfold Zdigits2 at 1.
  rewrite digits2_pos_shift52.
  destruct Hb as [[Hd He]|[Hd He]].
  - replace (fexp prec emax (52 + Z.pos (digits2_pos m) + (-51 + e)) - (-51 + e))%Z
      with 52%Z by (unfold fexp, emin, prec, emax; lia).
    rewrite shr_exact_52. cbn [shr_m loc_of_shr_record round_nearest_even].
    rewrite shr_fexp_canonical by (unfold fexp, emin, prec, emax; lia).
    cbn [shr_m]. rewrite Hd. cbn [Z.eqb Pos.eqb].
    replace (-51 + e + 52)%Z with (e + 1)%Z by lia. reflexivity.
  - replace (fexp prec emax (52 + Z.pos (digits2_pos m) + (-51 + e)) - (-51 + e))%Z
      with 51%Z by (unfold fexp, emin, prec, emax; lia).
    rewrite shr_exact_51. cbn [shr_m loc_of_shr_record round_nearest_even].
    rewrite shr_fexp_canonical
      by (cbn [digits2_pos]; unfold fexp, emin, prec, emax; lia).
    cbn [shr_m]. subst e.
    destruct (Z.eqb_spec (Z.pos (digits2_pos m)) 53) as [Heq|_]; [lia|].
    reflexivity.
Qed.

Lemma Qpower_2_succ e : (Qpower 2 (e + 1) == 2 * Qpower 2 e)%Q.
Proof.
  rewrite Qpower_plus by discriminate. rewrite Qmult_comm. reflexivity.
Qed.

(** Doubling is exact whenever the product is finite. *)
Lemma to_Q_mul_two v :
  valid v = true → is_finite (mul two v) = true →
  (to_Q (mul two v) == 2 * to_Q v)%Q.
Proof.
  destruct v as [s|s| |s m e].
  - intros _ _. reflexivity.
  - intros _ H. discriminate H.
  - intros _ H. discriminate H.
  - intros Hb. change (bounded prec emax m e = true) in Hb.
    rewrite (mul_two_finite s m e Hb).
    destruct (Z.pos (digits2_pos m) =? 53)%Z.
    + destruct (e + 1 <=? 971)%Z; [|discriminate]. intros _.
      cbn [to_Q]. rewrite Qpower_2_succ. ring.
    + intros _. cbn [to_Q].
      assert (inject_Z (cond_Zopp s (Z.pos m~0))
              == 2 * inject_Z (cond_Zopp s (Z.pos m)))%Q as ->.
      { destruct s; cbn [cond_Zopp Z.opp]; unfold Qeq; cbn; lia. }
      ring.
Qed.

#[global] Instance round_half_away_Proper : Proper (Qeq ==> eq) math.round_half_away.
Proof.
  intros x y Hxy. unfold math.round_half_away.
  assert (Qle_bool 0 x = Qle_bool 0 y) as ->.
  { destruct (Qle_bool 0 y) eqn:Hy.
    - apply Qle_bool_iff. rewrite Hxy. by apply Qle_bool_iff.
    - destruct (Qle_bool 0 x) eqn:Hx; [|done].
      apply Qle_bool_iff in Hx. rewrite Hxy in Hx.
      apply Qle_bool_iff in Hx. congruence. }
  destruct (Qle_bool 0 y).
  - apply Qfloor_comp. by rewrite Hxy.
  - f_equal. apply Qfloor_comp. by rewrite Hxy.
Qed.

Lemma digits2_pos_lower m : (2 ^ (Zpos (digits2_pos m) - 1) <= Zpos m)%Z.
Proof.
  induction m as [m IH|m IH|]; cbn [digits2_pos].
  - rewrite Pos2Z.inj_succ.
    replace (Z.succ (Z.pos (digits2_pos m)) - 1)%Z
      with (Z.succ (Z.pos (digits2_pos m) - 1))%Z by lia.
    rewrite Z.pow_succ_r by lia. lia.
  - rewrite Pos2Z.inj_succ.
    replace (Z.succ (Z.pos (digits2_pos m)) - 1)%Z
      with (Z.succ (Z.pos (digits2_pos m) - 1))%Z by lia.
    rewrite Z.pow_succ_r by lia. lia.
  - reflexivity.
Qed.

(** Below 2^1023 in magnitude the product does not overflow. *)
Lemma mul_two_is_finite v :
  valid v = true → is_finite v = true →
  (Qabs (to_Q v) < inject_Z (2 ^ 1023))%Q →
  is_finite (mul two v) = true.
Proof.
  destruct v as [s|s| |s m e]; try discriminate; [reflexivity|].
  intros Hb _ Hlt. change (bounded prec emax m e = true) in Hb.
  rewrite (mul_two_finite s m e Hb).
  destruct (Z.eqb_spec (Z.pos (digits2_pos m)) 53) as [Hd|_]; [|reflexivity].
  destruct (Z.leb_spec (e + 1) 971) as [_|He]; [reflexivity|exfalso].
  apply bounded_cases in Hb. assert (e = 971%Z) as -> by lia.
  pose proof (digits2_pos_lower m) as Hm. rewrite Hd in Hm.
  cbn [to_Q] in Hlt.
  change (Qpower 2 971) with (inject_Z (2 ^ 971)) in Hlt.
  rewrite <- inject_Z_mult in Hlt.
  unfold Qlt, Qabs, inject_Z in Hlt. cbn [Qnum Qden] in Hlt.
  change (2 ^ 1023)%Z with (2 ^ 52 * 2 ^ 971)%Z in Hlt.
  change (53 - 1)%Z with 52%Z in Hm.
  set (c := (2 ^ 971)%Z) in *. set (b := (2 ^ 52)%Z) in *.
  assert (0 < c)%Z by (subst c; reflexivity).
  assert (0 < b)%Z by (subst b; reflexivity).
  destruct s; cbn [cond_Zopp] in Hlt; nia.
Qed.

Lemma round_half_away_nonneg x :
  (0 <= x)%Q → math.round_half_away x = Qfloor (x + (1 # 2)).
Proof.
  intros H. unfold math.round_half_away.
  apply Qle_bool_iff in H. by rewrite H.
Qed.

Lemma round_half_away_neg x :
  (x < 0)%Q → math.round_half_away x = (- Qfloor (- x + (1 # 2)))%Z.
Proof.
  intros H. unfold math.round_half_away.
  destruct (Qle_bool 0 x) eqn:Hx; [|done].
  apply Qle_bool_iff in Hx. by apply Qle_not_lt in Hx.
Qed.

(** Rounding is symmetric about zero: ties move away from it on both
    sides. *)
Lemma round_half_away_opp x :
  math.round_half_away (- x) = (- math.round_half_away x)%Z.
Proof.
  destruct (Qlt_le_dec x 0) as [Hneg|Hnn].
  - rewrite (round_half_away_neg x Hneg), Z.opp_involutive.
    apply round_half_away_nonneg.
    apply (Qopp_le_compat x 0). by apply Qlt_le_weak.
  - rewrite (round_half_away_nonneg x Hnn).
    destruct (Qle_lt_or_eq _ _ Hnn) as [Hpos|Hzero].
    + rewrite round_half_away_neg by (by apply (Qopp_lt_compat 0 x)).
      f_equal. apply Qfloor_comp. by rewrite Qopp_involutive.
    + rewrite <- Hzero. reflexivity.
Qed.

(** The result is a nearest integer. *)
Lemma round_half_away_nearest x :
  (Qabs (x - inject_Z (math.round_half_away x)) <= 1 # 2)%Q.
Proof.
  assert (∀ y, (Qabs (y - inject_Z (Qfloor (y + (1 # 2)))) <= 1 # 2)%Q) as Hfl.
  { intros y. pose proof (Qfloor_le (y + (1 # 2))) as Hlo.
    pose proof (Qlt_floor (y + (1 # 2))) as Hhi.
    rewrite inject_Z_plus in Hhi.
    set (f := inject_Z (Qfloor (y + (1 # 2)))) in *.
    apply Qabs_Qle_condition. change (inject_Z 1) with 1%Q in Hhi.
    split; lra. }
  destruct (Qlt_le_dec x 0) as [Hneg|Hnn].
  - rewrite (round_half_away_neg x Hneg), inject_Z_opp.
    specialize (Hfl (- x)%Q). rewrite <- Qabs_opp.
    eapply Qle_trans; [|exact Hfl]. apply Qle_lteq. right.
    apply Qabs_wd. ring.
  - rewrite (round_half_away_nonneg x Hnn). apply Hfl.
Qed.

(** A tie goes to the integer of larger magnitude. *)
Lemma round_half_away_tie (n : Z) :
  (0 <= n)%Z →
  math.round_half_away (inject_Z n + (1 # 2)) = (n + 1)%Z
  ∧ math.round_half_away (- (inject_Z n + (1 # 2))) = (- (n + 1))%Z.
Proof.
  intros Hn.
  assert (math.round_half_away (inject_Z n + (1 # 2)) = (n + 1)%Z) as H.
  { rewrite round_half_away_nonneg.
    - rewrite <- (Qfloor_Z (n + 1)). apply Qfloor_comp.
      rewrite inject_Z_plus. change (inject_Z 1) with 1%Q. ring.
    - assert (inject_Z 0 <= inject_Z n)%Q as H0 by (rewrite <- Zle_Qle; exact Hn).
      change (inject_Z 0) with 0%Q in H0. lra. }
  split; [exact H|]. by rewrite round_half_away_opp, H.
Qed.


Context (Response : Type)
        (HTTPClient_Get : Trace → string → Response + error)
        (ReadFullyString : Response + error → string * option error)
        (Round_nonfinite : float64 → Z)
        (fritz : fritzImpl).

(** C5. For every finite [float64] temperature of magnitude below
    2^1023 (so that its double is a [float64]), the set-temperature
    callable sends one request whose [param] is the decimal text of
    twice the value rounded to the nearest integer, a tie going away
    from zero. *)
Theorem temperatureForAin_rounds ain value t :
  valid value = true →
  is_finite value = true →
  (Qabs (to_Q value) < inject_Z (2 ^ 1023))%Q →
  let url := url_getWithAinAndParam fritz ain "sethkrtsoll"
               (Sprintf_d (math.round_half_away (2 * to_Q value))) in
  temperatureForAin Response HTTPClient_Get ReadFullyString Round_nonfinite
                    fritz ain value t
  = (ReadFullyString (HTTPClient_Get t url), t ++ [HTTPGet url]).
Proof.
  intros Hvalid Hfin Hmag url.
  pose proof (mul_two_is_finite value Hvalid Hfin Hmag) as Hdbl.
  unfold temperatureForAin, math.Round. rewrite Hdbl.
  rewrite (round_half_away_Proper _ _ (to_Q_mul_two value Hvalid Hdbl)).
  reflexivity.
Qed.
End Doubling.

Lemma temperatureForAin_rounds_witness :
  temperatureForAin Scenario.Response Scenario.answers Scenario.read
                    Scenario.nonfinite Scenario.box "116570018736" Float64.t21_25 []
  = (("1", None),
     [HTTPGet "https://fritz.box:443//webservices/homeautoswitch.lua?ain=116570018736&switchcmd=sethkrtsoll&param=43&sid=0123456789abcdef"]).
Proof.
  apply (temperatureForAin_rounds Scenario.Response Scenario.answers
           Scenario.read Scenario.nonfinite Scenario.box
           "116570018736" Float64.t21_25 []); reflexivity.
Defined.

(** The two inputs of the rounding law: 21.3 doubles to 42.6 and 21.25 to
    the tie 42.5; both are sent as 43, and a value below zero mirrors. *)
Example temperature_21_3 :
  requests (temperatureForAin Scenario.Response Scenario.answers Scenario.read
              Scenario.nonfinite Scenario.box "116570018736" Float64.t21_3 []).2
  = ["https://fritz.box:443//webservices/homeautoswitch.lua?ain=116570018736&switchcmd=sethkrtsoll&param=43&sid=0123456789abcdef"].
Proof. vm_compute. reflexivity. Qed.

Example temperature_21_25 :
  requests (temperatureForAin Scenario.Response Scenario.answers Scenario.read
              Scenario.nonfinite Scenario.box "116570018736" Float64.t21_25 []).2
  = ["https://fritz.box:443//webservices/homeautoswitch.lua?ain=116570018736&switchcmd=sethkrtsoll&param=43&sid=0123456789abcdef"].
Proof. vm_compute. reflexivity. Qed.

Example temperature_minus_21_25 :
  requests (temperatureForAin Scenario.Response Scenario.answers Scenario.read
              Scenario.nonfinite Scenario.box "116570018736"
              (Floats.SpecFloat.SFopp Float64.t21_25) []).2
  = ["https://fritz.box:443//webservices/homeautoswitch.lua?ain=116570018736&switchcmd=sethkrtsoll&param=-43&sid=0123456789abcdef"].
Proof. vm_compute. reflexivity. Qed.

Example two_is_2 : two = Float64.of_Z 2.
Proof. vm_compute. reflexivity. Qed.

Example t21_3_bits :
  Float64.t21_3 = Floats.SpecFloat.S754_finite false 5995417003936973 (-48).
Proof. vm_compute. reflexivity. Qed.

(** * Further properties of [fritzapi.go] *)

(** ** The address clean-up *)

Lemma bytes_append s1 s2 : bytes (s1 +:+ s2) = bytes s1 ++ bytes s2.
Proof.
  unfold bytes. induction s1 as [|c s1 IH]; [done|].
  simpl. by rewrite IH.
Qed.

Lemma bytes_inj s1 s2 : bytes s1 = bytes s2 → s1 = s2.
Proof.
  intros H. rewrite <- (string_of_list_ascii_of_string s1).
  rewrite <- (string_of_list_ascii_of_string s2). unfold bytes in H. by rewrite H.
Qed.

Lemma bytes_length s : length (bytes s) = String.length s.
Proof. unfold bytes. induction s as [|c s IH]; [done|]. simpl. by rewrite IH. Qed.

Lemma append_assoc_go s1 s2 s3 : (s1 +:+ s2) +:+ s3 = s1 +:+ (s2 +:+ s3).
Proof. apply bytes_inj. by rewrite !bytes_append, app_assoc. Qed.

(** Removing a byte from a concatenation removes it from each part:
    [strings.Replace] with a one-byte [old] distributes over [+], so the
    clean-up of an address does not depend on where its spaces stand
    relative to the rest. *)
Theorem ReplaceByte_append (s1 s2 : string) (old : ascii) (new : string) :
  ReplaceByte (s1 +:+ s2) old new
  = ReplaceByte s1 old new +:+ ReplaceByte s2 old new.
Proof.
  induction s1 as [|c s1 IH]; [done|]. simpl.
  destruct (Ascii.eqb c old); rewrite IH; [|done].
  by rewrite append_assoc_go.
Qed.

(** Cleaning an address is idempotent, leaves exactly the texts
    without the byte unchanged, and never lengthens the text. *)
Theorem ReplaceByte_empty_idempotent (s : string) (old : ascii) :
  ReplaceByte (ReplaceByte s old "") old "" = ReplaceByte s old ""
  ∧ (ReplaceByte s old "" = s ↔ old ∉ bytes s)
  ∧ (String.length (ReplaceByte s old "") ≤ String.length s)%nat.
Proof.
  split; [|split].
  - apply bytes_inj. unfold bytes. rewrite !ReplaceByte_empty_filter.
    induction (list_ascii_of_string s) as [|c l IH]; [done|].
    rewrite filter_cons. destruct (decide (c ≠ old)) as [Hc|Hc]; [|done].
    by rewrite filter_cons, decide_True, IH.
  - split.
    + intros Heq Hin. rewrite <- Heq in Hin. unfold bytes in Hin.
      rewrite ReplaceByte_empty_filter in Hin.
      apply list_elem_of_filter in Hin as [Hne _]. by apply Hne.
    + intros Hnin. apply bytes_inj. unfold bytes in *.
      rewrite ReplaceByte_empty_filter.
      induction (list_ascii_of_string s) as [|c l IH]; [done|].
      apply not_elem_of_cons in Hnin as [Hne Hnin].
      rewrite filter_cons, decide_True by done. by rewrite IH.
  - rewrite <- !bytes_length. unfold bytes.
    rewrite ReplaceByte_empty_filter. apply length_filter.
Qed.

(** ** The directory *)

Lemma nameToAinTable_snoc devs dev :
  nameToAinTable (devs ++ [dev])
  = <[Name dev := ReplaceByte (Identifier dev) " " ""]> (nameToAinTable devs).
Proof. unfold nameToAinTable. by rewrite foldl_app. Qed.

(** X1. The keys of the directory are exactly the names of the listed
    devices, so the directory has at most as many entries as the listing
    has devices (fewer when names repeat). *)
Theorem nameToAinTable_dom (devs : list Device) :
  dom (nameToAinTable devs) = list_to_set (Name <$> devs)
  ∧ (size (nameToAinTable devs) ≤ length devs)%nat.
Proof.
  split.
  - apply set_eq. intros name.
    rewrite elem_of_dom, nameToAinTable_lookup, elem_of_list_to_set,
      list_elem_of_fmap, fmap_is_Some.
    split.
    + intros [dev Hdev]. apply last_named_elem in Hdev as [Hin Hname]. eauto.
    + intros (dev & -> & Hin). apply last_named_is_Some. eauto.
  - induction devs as [|dev devs IH] using rev_ind; [done|].
    rewrite nameToAinTable_snoc, length_app, map_size_insert. cbn.
    destruct (nameToAinTable devs !! Name dev); unfold id; lia.
Qed.

(** X2. No address of the directory holds a space, whatever the gateway
    listed. *)
Theorem nameToAinTable_no_space (devs : list Device) (name ain : string) :
  nameToAinTable devs !! name = Some ain → " "%char ∉ bytes ain.
Proof.
  rewrite nameToAinTable_lookup.
  destruct (last_named name devs) as [dev|]; [|done].
  intros [= <-] Hin. unfold bytes in Hin.
  rewrite ReplaceByte_empty_filter in Hin.
  apply list_elem_of_filter in Hin as [Hne _]. by apply Hne.
Qed.

Lemma nameToAinTable_no_space_witness :
  " "%char ∉ bytes "116570018736".
Proof.
  apply (nameToAinTable_no_space Scenario.listing "Lamp" "116570018736").
  vm_compute. reflexivity.
Defined.

(** X3. An address field without a space enters the directory as it is,
    and only such a field does: the entry of a name equals the raw field
    of the last device of that name exactly when the field holds no
    space. *)
Theorem nameToAinTable_verbatim_iff (devs : list Device) (name : string) (dev : Device) :
  last_named name devs = Some dev →
  (nameToAinTable devs !! name = Some (Identifier dev)
   ↔ " "%char ∉ bytes (Identifier dev)).
Proof.
  intros Hlast. rewrite nameToAinTable_lookup, Hlast. cbn.
  destruct (ReplaceByte_empty_idempotent (Identifier dev) " ") as (_ & Hiff & _).
  rewrite <- Hiff. split; [by intros [= ->]|by intros ->].
Qed.

Lemma nameToAinTable_verbatim_iff_witness :
  nameToAinTable Scenario.listing !! "Lamp" = Some (Identifier Scenario.Lamp)
  ↔ " "%char ∉ bytes (Identifier Scenario.Lamp).
Proof.
  apply (nameToAinTable_verbatim_iff Scenario.listing "Lamp" Scenario.Lamp).
  reflexivity.
Defined.

Section Fetch.
Context (Response : Type)
        (HTTPClient_Get : Trace → string → Response + error)
        (xml_Decode : Response → Devicelist * option error)
        (quote : string → string)
        (range : MapRange)
        (fritz : fritzImpl).

(** X4. [ListDevices] sends exactly one request, the listing request;
    its pointer is nil exactly when that request failed, and then the
    error is the transport's and the decoder is not consulted. *)
Theorem ListDevices_one_request t :
  (ListDevices Response HTTPClient_Get xml_Decode fritz t).2
  = t ++ [HTTPGet (url_get fritz "getdevicelistinfos")]
  ∧ ((ListDevices Response HTTPClient_Get xml_Decode fritz t).1.1 = None
     ↔ ∃ e, HTTPClient_Get t (url_get fritz "getdevicelistinfos") = inr e)
  ∧ (∀ e, HTTPClient_Get t (url_get fritz "getdevicelistinfos") = inr e →
          (ListDevices Response HTTPClient_Get xml_Decode fritz t).1
          = (None, Some e)).
Proof.
  unfold ListDevices, get, HTTPClient_Get_url, mbind, M_bind.
  destruct (HTTPClient_Get t _) as [response|e0].
  - destruct (xml_Decode response) as [dl e1]. cbn.
    split; [done|]. split; [|done]. split; [done|]. by intros [e He].
  - cbn. split; [done|]. split; [|by intros e [= ->]]. split; [eauto|done].
Qed.

Lemma getNameToAinTable_cases t :
  ((∃ dl, (ListDevices Response HTTPClient_Get xml_Decode fritz t).1
          = (Some dl, None)
          ∧ (getNameToAinTable Response HTTPClient_Get xml_Decode fritz t).1
            = (Some (nameToAinTable (Devices dl)), None))
   ∨ (∃ e, (getNameToAinTable Response HTTPClient_Get xml_Decode fritz t).1
           = (None, Some e)))
  ∧ (getNameToAinTable Response HTTPClient_Get xml_Decode fritz t).2
    = t ++ [HTTPGet (listing_url fritz)].
Proof.
  pose proof (ListDevices_trace Response HTTPClient_Get xml_Decode fritz t) as Ht.
  pose proof (ListDevices_pointer Response HTTPClient_Get xml_Decode fritz t) as Hp.
  unfold getNameToAinTable, mbind, M_bind.
  destruct (ListDevices Response HTTPClient_Get xml_Decode fritz t)
    as [[devList e] t']. cbn in *. subst t'.
  destruct e as [e|]; [split; [right; eauto|done]|].
  destruct (Hp eq_refl) as [dl ->]. cbn. split; [left; eauto|done].
Qed.

(** X5. [getNameToAinTable] returns a map with a nil error or a nil map
    with an error, never both or neither, after exactly the listing
    request; a listing without devices gives the empty map, not nil. *)
Theorem getNameToAinTable_map_xor_error t :
  ((∃ table, (getNameToAinTable Response HTTPClient_Get xml_Decode fritz t).1
             = (Some table, None))
   ∨ (∃ e, (getNameToAinTable Response HTTPClient_Get xml_Decode fritz t).1
           = (None, Some e)))
  ∧ (getNameToAinTable Response HTTPClient_Get xml_Decode fritz t).2
    = t ++ [HTTPGet (listing_url fritz)]
  ∧ ((ListDevices Response HTTPClient_Get xml_Decode fritz t).1
     = (Some {| Devices := [] |}, None) →
     (getNameToAinTable Response HTTPClient_Get xml_Decode fritz t).1
     = (Some ∅, None)).
Proof.
  destruct (getNameToAinTable_cases t) as [Hcases Ht].
  split; [|split; [done|]].
  - destruct Hcases as [(dl & _ & Htab)|[e He]]; [left|right]; eauto.
  - intros Hok. by rewrite (getNameToAinTable_ok _ _ _ _ _ _ Hok).
Qed.

(** X6. [buildBacklog] sends the listing request and nothing else,
    whatever the names and the work factory: building targets never runs
    a callable, also when it succeeds. *)
Theorem buildBacklog_one_request names (workFactory : string → Work) t :
  (buildBacklog Response HTTPClient_Get xml_Decode quote range fritz
                names workFactory t).2
  = t ++ [HTTPGet (listing_url fritz)].
Proof.
  pose proof (getNameToAinTable_cases t) as [_ Ht].
  unfold buildBacklog, mbind, M_bind.
  destruct (getNameToAinTable Response HTTPClient_Get xml_Decode fritz t)
    as [[table e] t']. cbn in *. subst t'.
  by destruct e.
Qed.

End Fetch.

Lemma ListDevices_one_request_witness :
  (ListDevices Scenario.Response Scenario.unreachable Scenario.decoded
               Scenario.box []).1
  = (None, Some (errors_New "dial tcp: no route to host")).
Proof.
  apply (proj2 (proj2 (ListDevices_one_request Scenario.Response
                         Scenario.unreachable Scenario.decoded Scenario.box []))).
  reflexivity.
Defined.

Lemma getNameToAinTable_map_xor_error_witness :
  (getNameToAinTable Scenario.Response Scenario.answers
                     (Scenario.decode [] None) Scenario.box []).1
  = (Some ∅, None).
Proof.
  apply (proj2 (proj2 (getNameToAinTable_map_xor_error Scenario.Response
                         Scenario.answers (Scenario.decode [] None)
                         Scenario.box []))).
  reflexivity.
Defined.

(** ** Building the targets *)

Lemma foldl_insert_lookup {V} (f : string → V) names (targets : gmap string V) name :
  foldl (λ tg n, <[n := f n]> tg) targets names !! name
  = if decide (name ∈ names) then Some (f name) else targets !! name.
Proof.
  revert targets. induction names as [|n names IH]; intros targets; cbn.
  - by rewrite decide_False by apply not_elem_of_nil.
  - rewrite IH. destruct (decide (name ∈ names)) as [Hin|Hnin].
    + by rewrite decide_True by (by right).
    + destruct (decide (n = name)) as [->|Hne].
      * rewrite lookup_insert_eq. by rewrite decide_True by left.
      * rewrite lookup_insert_ne by done.
        rewrite decide_False; [done|].
        intros Hin. apply elem_of_cons in Hin as [?|?]; congruence.
Qed.

Section Backlog.
Context (Response : Type)
        (HTTPClient_Get : Trace → string → Response + error)
        (xml_Decode : Response → Devicelist * option error)
        (ReadFullyString : Response + error → string * option error)
        (TrimSpace quote : string → string)
        (range : MapRange)
        (Round_nonfinite : Float64.float64 → Z)
        (fritz : fritzImpl).

#[local] Abbreviation buildBacklog__ :=
  (buildBacklog Response HTTPClient_Get xml_Decode quote range fritz).

Lemma buildBacklog_loop_cases table (workFactory : string → Work) names targets :
  (Forall (resolves table) names
   ∧ ∃ built, buildBacklog_loop quote range table workFactory names targets
              = (Some built, None))
  ∨ (Exists (unresolved table) names
     ∧ ∃ e, buildBacklog_loop quote range table workFactory names targets
            = (None, Some e)).
Proof.
  assert (Forall (resolves table) names ∨ Exists (unresolved table) names)
    as [Hall|Hun].
  { induction names as [|n names IH]; [by left|].
    destruct (resolves_or_unresolved table n) as [Hn|Hn]; [|by right; left].
    destruct IH as [IH|IH]; [left; by constructor|right; by right]. }
  - left. split; [done|].
    rewrite (buildBacklog_loop_resolved quote range _ _ _ _ Hall). eauto.
  - right. split; [done|].
    destruct (buildBacklog_loop_unresolved quote range table workFactory
                names targets Hun) as (pre & bad & post & _ & _ & _ & Hloop).
    eauto.
Qed.

(** X7. Once the directory is fetched, [buildBacklog] fails exactly when
    some requested name is unresolved, and it returns a target map
    exactly when it returns no error. *)
Theorem buildBacklog_ok_iff names (workFactory : string → Work) t dl :
  (ListDevices Response HTTPClient_Get xml_Decode fritz t).1 = (Some dl, None) →
  ((buildBacklog Response HTTPClient_Get xml_Decode quote range fritz
                 names workFactory t).1.2 = None
   ↔ Forall (resolves (nameToAinTable (Devices dl))) names)
  ∧ (is_Some (buildBacklog Response HTTPClient_Get xml_Decode quote range fritz
                           names workFactory t).1.1
     ↔ (buildBacklog Response HTTPClient_Get xml_Decode quote range fritz
                     names workFactory t).1.2 = None).
Proof.
  intros Hok. rewrite (buildBacklog_ok _ _ _ quote range _ _ _ _ _ Hok). cbn.
  destruct (buildBacklog_loop_cases (nameToAinTable (Devices dl))
              workFactory names ∅)
    as [[Hall [built ->]]|[Hex [e ->]]]; cbn.
  - split; [done|]. split; eauto.
  - split; [|split; [by intros [? ?]|done]].
    split; [done|]. intros Hall. exfalso.
    apply Exists_exists in Hex as (n & Hin & Hn).
    rewrite Forall_forall in Hall.
    by apply (resolves_not_unresolved _ _ (Hall n Hin)).
Qed.

(** X8. When every requested name resolves, the target of a requested
    name is the work factory applied to the cleaned address of the last
    listed device of that name, and names that were not requested have
    no target. *)
Theorem buildBacklog_targets names (workFactory : string → Work) t dl :
  (ListDevices Response HTTPClient_Get xml_Decode fritz t).1 = (Some dl, None) →
  Forall (resolves (nameToAinTable (Devices dl))) names →
  ∃ targets,
    (buildBacklog Response HTTPClient_Get xml_Decode quote range fritz
                  names workFactory t).1 = (Some targets, None)
    ∧ (∀ name, name ∈ names →
         ∃ dev, last_named name (Devices dl) = Some dev
                ∧ targets !! name
                  = Some (workFactory (ReplaceByte (Identifier dev) " " "")))
    ∧ (∀ name, name ∉ names → targets !! name = None).
Proof.
  intros Hok Hall. eexists. split.
  { rewrite (buildBacklog_ok _ _ _ quote range _ _ _ _ _ Hok). cbn.
    by rewrite (buildBacklog_loop_resolved quote range _ _ _ _ Hall). }
  set (table := nameToAinTable (Devices dl)) in *.
  split; intros name Hname;
    rewrite (foldl_insert_lookup (λ n, workFactory (default "" (table !! n)))).
  - rewrite decide_True by done.
    rewrite Forall_forall in Hall.
    destruct (Hall name Hname) as (ain & Hain & _).
    subst table. rewrite nameToAinTable_lookup in Hain |- *.
    destruct (last_named name (Devices dl)) as [dev|]; [|done].
    exists dev. split; [done|]. cbn. done.
  - by rewrite decide_False.
Qed.

(** X9. A listed device whose address field is empty or holds spaces
    only cannot be addressed: a dispatch whose first name is that
    device's fails with "No device found with name ...", although the
    hint that follows lists the very name among the available devices. *)
Theorem blank_address_unaddressable c name rest t dl dev :
  (ListDevices Response HTTPClient_Get xml_Decode fritz t).1 = (Some dl, None) →
  last_named name (Devices dl) = Some dev →
  Forall (λ b, b = " "%char) (bytes (Identifier dev)) →
  ∃ known,
    name ∈ known
    ∧ (dispatch Response HTTPClient_Get xml_Decode ReadFullyString TrimSpace
                quote range Round_nonfinite fritz c (name :: rest) t).1
      = Some (errors_New
                ("No device found with name '" +:+ name +:+
                 "'. Available devices are " +:+ Join (quote <$> known) ", ")).
Proof.
  intros Hok Hlast Hblank.
  set (table := nameToAinTable (Devices dl)).
  assert (table !! name = Some "") as Hempty.
  { subst table. rewrite nameToAinTable_lookup, Hlast. cbn. f_equal.
    apply bytes_inj. unfold bytes in *. rewrite ReplaceByte_empty_filter.
    induction Hblank as [|b l -> _ IH]; [done|].
    by rewrite filter_cons, decide_False by (intros H; by apply H). }
  exists (stringutils.StringKeys range table). split.
  - unfold stringutils.StringKeys. rewrite (range_perm range).
    apply list_elem_of_fmap. exists (name, ""). split; [done|].
    by apply elem_of_map_to_list.
  - rewrite dispatch_doConcurrently. unfold doConcurrently, mbind, M_bind.
    rewrite (buildBacklog_ok _ _ _ quote range _ _ _ _ _ Hok).
    cbn [buildBacklog_loop]. fold table. rewrite Hempty. reflexivity.
Qed.

End Backlog.

Lemma buildBacklog_ok_iff_witness :
  ((buildBacklog Scenario.Response Scenario.answers Scenario.decoded
                 Scenario.quote Scenario.in_order Scenario.box
                 ["Plug"; "Fan"] (λ ain, mret (ain, None)) []).1.2 = None
   ↔ Forall (resolves (nameToAinTable Scenario.listing)) ["Plug"; "Fan"])
  ∧ (is_Some (buildBacklog Scenario.Response Scenario.answers Scenario.decoded
                Scenario.quote Scenario.in_order Scenario.box
                ["Plug"; "Fan"] (λ ain, mret (ain, None)) []).1.1
     ↔ (buildBacklog Scenario.Response Scenario.answers Scenario.decoded
          Scenario.quote Scenario.in_order Scenario.box
          ["Plug"; "Fan"] (λ ain, mret (ain, None)) []).1.2 = None).
Proof.
  apply (buildBacklog_ok_iff Scenario.Response Scenario.answers
           Scenario.decoded Scenario.quote Scenario.in_order Scenario.box
           ["Plug"; "Fan"] (λ ain, mret (ain, None)) []
           {| Devices := Scenario.listing |}).
  reflexivity.
Defined.

Lemma buildBacklog_targets_witness :
  ∃ targets,
    (buildBacklog Scenario.Response Scenario.answers
                  (Scenario.decode [Scenario.Lamp; Scenario.Twin] None)
                  Scenario.quote Scenario.in_order Scenario.box
                  ["Lamp"] (λ ain, mret (ain, None)) []).1 = (Some targets, None)
    ∧ (∀ name, name ∈ ["Lamp"] →
         ∃ dev, last_named name [Scenario.Lamp; Scenario.Twin] = Some dev
                ∧ targets !! name
                  = Some ((λ ain, mret (ain, None))
                            (ReplaceByte (Identifier dev) " " "")))
    ∧ (∀ name, name ∉ ["Lamp"] → targets !! name = None).
Proof.
  apply (buildBacklog_targets Scenario.Response Scenario.answers
           (Scenario.decode [Scenario.Lamp; Scenario.Twin] None)
           Scenario.quote Scenario.in_order Scenario.box
           ["Lamp"] (λ ain, mret (ain, None)) []
           {| Devices := [Scenario.Lamp; Scenario.Twin] |}).
  - reflexivity.
  - repeat constructor. eexists. split; [vm_compute; reflexivity|discriminate].
Defined.

Lemma blank_address_unaddressable_witness :
  ∃ known,
    "Ghost" ∈ known
    ∧ (dispatch Scenario.Response Scenario.answers
                (Scenario.decode [Scenario.Lamp; Scenario.Ghost] None)
                Scenario.read Scenario.trim Scenario.quote Scenario.in_order
                Scenario.nonfinite Scenario.box switch_off ["Ghost"; "Lamp"] []).1
      = Some (errors_New
                ("No device found with name '" +:+ "Ghost" +:+
                 "'. Available devices are " +:+
                 Join (Scenario.quote <$> known) ", ")).
Proof.
  apply (blank_address_unaddressable Scenario.Response Scenario.answers
           (Scenario.decode [Scenario.Lamp; Scenario.Ghost] None)
           Scenario.read Scenario.trim Scenario.quote Scenario.in_order
           Scenario.nonfinite Scenario.box switch_off "Ghost" ["Lamp"] []
           {| Devices := [Scenario.Lamp; Scenario.Ghost] |} Scenario.Ghost).
  - reflexivity.
  - reflexivity.
  - repeat constructor.
Defined.

(** ** The aggregator, further *)

Lemma Join_cons x y l sep : Join (x :: y :: l) sep = x +:+ sep +:+ Join (y :: l) sep.
Proof. reflexivity. Qed.

Lemma append_nil_r_go s : s +:+ "" = s.
Proof. apply bytes_inj. by rewrite bytes_append, app_nil_r. Qed.

Lemma Join_app l1 l2 sep :
  l1 ≠ [] → l2 ≠ [] →
  Join (l1 ++ l2) sep = Join l1 sep +:+ sep +:+ Join l2 sep.
Proof.
  intros H1 H2. induction l1 as [|x l1 IH]; [done|].
  destruct l1 as [|y l1].
  - destruct l2 as [|z l2]; [done|]. reflexivity.
  - change ((x :: y :: l1) ++ l2) with (x :: y :: (l1 ++ l2)).
    rewrite !Join_cons. change (y :: l1 ++ l2) with ((y :: l1) ++ l2).
    rewrite IH by done. by rewrite !append_assoc_go.
Qed.

Lemma Join_contains l sep x : x ∈ l → contains (Join l sep) x.
Proof.
  intros Hin. apply list_elem_of_split in Hin as (l1 & l2 & ->).
  destruct l1 as [|a l1], l2 as [|b l2].
  - exists "", "". cbn. by rewrite append_nil_r_go.
  - exists "", (sep +:+ Join (b :: l2) sep). reflexivity.
  - exists (Join (a :: l1) sep +:+ sep), "".
    rewrite (Join_app (a :: l1) [x]) by done. cbn [Join].
    by rewrite append_nil_r_go, append_assoc_go.
  - exists (Join (a :: l1) sep +:+ sep), (sep +:+ Join (b :: l2) sep).
    rewrite (Join_app (a :: l1) (x :: b :: l2)) by done.
    rewrite Join_cons. by rewrite !append_assoc_go.
Qed.

(** X10. No failure is lost: the message of the combined error contains
    the message of the error of every failing outcome of the batch,
    wherever the outcome stands in the batch. *)
Theorem genericResult_reports_every_failure (results : list result) r e :
  r ∈ results → err r = Some e →
  ∃ combined, genericResult results = Some combined
              ∧ contains (Error combined) (Error e).
Proof.
  intros Hin He. rewrite genericResult_spec.
  assert (e ∈ omap err results) as Hmem
    by (apply list_elem_of_omap; eauto).
  destruct (omap err results) as [|e0 l] eqn:Hl; [by apply elem_of_nil in Hmem|].
  eexists. split; [reflexivity|]. cbn [Error errors_New].
  destruct (Join_contains (Error <$> e0 :: l) "; " (Error e)) as (pre & post & Hj).
  { apply list_elem_of_fmap. eauto. }
  exists ("Not all devices could be processed! Nested errors are: " +:+ pre), post.
  rewrite Hj. by rewrite append_assoc_go.
Qed.

Lemma genericResult_reports_every_failure_witness :
  ∃ combined,
    genericResult [ {| msg := "1"; err := None |};
                    {| msg := ""; err := Some (errors_New "timeout") |} ]
    = Some combined
    ∧ contains (Error combined) (Error (errors_New "timeout")).
Proof.
  apply (genericResult_reports_every_failure
           [ {| msg := "1"; err := None |};
             {| msg := ""; err := Some (errors_New "timeout") |} ]
           {| msg := ""; err := Some (errors_New "timeout") |}
           (errors_New "timeout")).
  - right. left.
  - reflexivity.
Defined.

(** X11. The verdict depends on the errors of the batch alone: outcomes
    without an error can be dropped from the batch, and so can every
    response message, without changing what [genericResult] returns. *)
Theorem genericResult_errors_only (results : list result) :
  genericResult results = genericResult (filter (λ r, is_Some (err r)) results)
  ∧ genericResult results
    = genericResult ((λ r, {| msg := ""; err := err r |}) <$> results).
Proof.
  rewrite !genericResult_spec. split.
  - assert (omap err (filter (λ r, is_Some (err r)) results) = omap err results)
      as ->; [|done].
    induction results as [|r results IH]; [done|].
    rewrite filter_cons. destruct (decide (is_Some (err r))) as [[e He]|Hn].
    + cbn. by rewrite He, IH.
    + cbn. destruct (err r) eqn:He; [by destruct Hn; eauto|]. exact IH.
  - assert (omap err ((λ r, {| msg := ""; err := err r |}) <$> results)
            = omap err results) as ->; [|done].
    induction results as [|r results IH]; [done|].
    cbn. rewrite IH. done.
Qed.

(** X12. Aggregation composes: the verdict [truncateToOne] gives on two
    batches put together is the two verdicts joined with "; " when both
    batches failed, and the one of the failing batch otherwise. *)
Theorem truncateToOne_app (results1 results2 : list result) :
  truncateToOne (results1 ++ results2)
  = match truncateToOne results1, truncateToOne results2 with
    | Some e1, Some e2 => Some (errors_New (Error e1 +:+ "; " +:+ Error e2))
    | Some e1, None => Some e1
    | None, verdict => verdict
    end.
Proof.
  rewrite !truncateToOne_spec, omap_app.
  destruct (omap err results1) as [|e1 l1], (omap err results2) as [|e2 l2].
  - done.
  - done.
  - by rewrite app_nil_r.
  - change ((e1 :: l1) ++ e2 :: l2) with (e1 :: (l1 ++ e2 :: l2)).
    f_equal. cbn [Error errors_New]. f_equal.
    change (e1 :: (l1 ++ e2 :: l2)) with ((e1 :: l1) ++ e2 :: l2).
    rewrite fmap_app. by apply Join_app.
Qed.

(** ** The doubled temperature *)

Section Doubled.
Import Floats.SpecFloat Float64.

Lemma largest_exponent_magnitude s m :
  Zpos (digits2_pos m) = 53%Z →
  (inject_Z (2 ^ 1023) <= Qabs (to_Q (S754_finite s m 971)))%Q.
Proof.
  intros Hd. pose proof (digits2_pos_lower m) as Hm. rewrite Hd in Hm.
  cbn [to_Q]. change (Qpower 2 971) with (inject_Z (2 ^ 971)).
  rewrite <- inject_Z_mult.
  unfold Qle, Qabs, inject_Z. cbn [Qnum Qden].
  change (2 ^ 1023)%Z with (2 ^ 52 * 2 ^ 971)%Z.
  change (53 - 1)%Z with 52%Z in Hm.
  set (c := (2 ^ 971)%Z) in *. set (b := (2 ^ 52)%Z) in *.
  assert (0 < c)%Z by (subst c; reflexivity).
  assert (0 < b)%Z by (subst b; reflexivity).
  destruct s; cbn [cond_Zopp]; nia.
Qed.

(** X13. The multiplication [2 * value] never rounds: on every finite
    [float64] the product is again a [float64], and it is either finite
    and exactly twice the value, or the infinity of the value's sign,
    which happens only from magnitude 2^1023 on. *)
Theorem doubling_exact (v : float64) :
  valid v = true → is_finite v = true →
  valid (mul two v) = true
  ∧ ((is_finite (mul two v) = true ∧ (to_Q (mul two v) == 2 * to_Q v)%Q)
     ∨ (mul two v = S754_infinity (sign_bit v)
        ∧ (inject_Z (2 ^ 1023) <= Qabs (to_Q v))%Q)).
Proof.
  destruct v as [s|s| |s m e]; try discriminate.
  - intros _ _. split; [reflexivity|]. left. split; reflexivity.
  - intros Hb _. change (bounded prec emax m e = true) in Hb.
    pose proof (to_Q_mul_two (S754_finite s m e) Hb) as Hexact.
    rewrite (mul_two_finite s m e Hb) in *.
    apply bounded_cases in Hb.
    destruct (Z.eqb_spec (Z.pos (digits2_pos m)) 53) as [Hd|Hd].
    + destruct (Z.leb_spec (e + 1) 971) as [He|He].
      * split; [|left; split; [done|by apply Hexact]].
        unfold valid, valid_binary, bounded, canonical_mantissa, fexp, emin,
          prec, emax. rewrite Hd.
        apply andb_true_intro. split; [apply Z.eqb_eq|apply Z.leb_le]; lia.
      * split; [reflexivity|]. right. split; [reflexivity|].
        assert (e = 971%Z) as -> by lia.
        by apply largest_exponent_magnitude.
    + split; [|left; split; [done|by apply Hexact]].
      destruct Hb as [[Hd' _]|[Hd' ->]]; [done|].
      unfold valid, valid_binary, bounded, canonical_mantissa, fexp, emin,
        prec, emax. cbn [digits2_pos]. rewrite Pos2Z.inj_succ.
      apply andb_true_intro. split; [apply Z.eqb_eq|apply Z.leb_le]; lia.
Qed.

Lemma doubling_exact_witness :
  valid (mul two t21_3) = true
  ∧ ((is_finite (mul two t21_3) = true
      ∧ (to_Q (mul two t21_3) == 2 * to_Q t21_3)%Q)
     ∨ (mul two t21_3 = S754_infinity (sign_bit t21_3)
        ∧ (inject_Z (2 ^ 1023) <= Qabs (to_Q t21_3))%Q)).
Proof. apply (doubling_exact t21_3); reflexivity. Defined.

Lemma round_half_away_Z (k : Z) : math.round_half_away (inject_Z k) = k.
Proof.
  destruct (Z_lt_le_dec k 0) as [Hneg|Hnn].
  - rewrite round_half_away_neg
      by (change 0%Q with (inject_Z 0); by rewrite <- Zlt_Qlt).
    rewrite <- inject_Z_opp.
    assert (Qfloor (inject_Z (- k) + (1 # 2)) = (- k)%Z) as ->; [|lia].
    unfold Qfloor, inject_Z, Qplus. cbn [Qnum Qden].
    rewrite Z.mul_1_l, Pos.mul_1_l.
    change (Z.pos 2) with 2%Z. symmetry. apply (Z.div_unique _ _ _ 1); lia.
  - rewrite round_half_away_nonneg
      by (change 0%Q with (inject_Z 0); by rewrite <- Zle_Qle).
    unfold Qfloor, inject_Z, Qplus. cbn [Qnum Qden].
    rewrite Z.mul_1_l, Pos.mul_1_l.
    change (Z.pos 2) with 2%Z. symmetry. apply (Z.div_unique _ _ _ 1); lia.
Qed.

Context (Response : Type)
        (HTTPClient_Get : Trace → string → Response + error)
        (ReadFullyString : Response + error → string * option error)
        (Round_nonfinite : float64 → Z)
        (fritz : fritzImpl).

(** X14. Half-degree temperatures are sent exactly: when the value is
    [k]/2 for an integer [k] (of magnitude below 2^1024), the request of
    the set-temperature callable carries [k] itself as its [param], with
    [math.Round] rounding as the spec describes it. *)
Theorem temperatureForAin_half_degrees ain value (k : Z) t :
  valid value = true →
  is_finite value = true →
  (to_Q value == k # 2)%Q →
  (Z.abs k < 2 ^ 1024)%Z →
  (temperatureForAin Response HTTPClient_Get ReadFullyString Round_nonfinite
                     fritz ain value t).2
  = t ++ [HTTPGet (url_getWithAinAndParam fritz ain "sethkrtsoll" (Sprintf_d k))].
Proof.
  intros Hvalid Hfin Hk Hmag.
  assert (Qabs (to_Q value) < inject_Z (2 ^ 1023))%Q as Hlt.
  { rewrite Hk. unfold Qlt, Qabs, inject_Z. cbn [Qnum Qden].
    change (2 ^ 1024)%Z with (2 ^ 1023 * 2)%Z in Hmag.
    change (Z.pos 2) with 2%Z. lia. }
  pose proof (mul_two_is_finite value Hvalid Hfin Hlt) as Hdbl.
  unfold temperatureForAin, math.Round. rewrite Hdbl.
  rewrite (round_half_away_Proper _ (inject_Z k)).
  - by rewrite round_half_away_Z.
  - rewrite (to_Q_mul_two value Hvalid Hdbl), Hk.
    unfold Qeq, inject_Z, Qmult. cbn [Qnum Qden]. lia.
Qed.

(** The temperature the gateway is asked for lies within a quarter
    of a degree of the requested one: the [param] sent is an integer [n]
    with |n - 2 * value| <= 1/2, for every finite value of magnitude
    below 2^1023 and with [math.Round] rounding as the spec describes
    it. *)
Theorem temperatureForAin_quarter_degree ain value t :
  valid value = true →
  is_finite value = true →
  (Qabs (to_Q value) < inject_Z (2 ^ 1023))%Q →
  ∃ n : Z,
    (temperatureForAin Response HTTPClient_Get ReadFullyString Round_nonfinite
                       fritz ain value t).2
    = t ++ [HTTPGet (url_getWithAinAndParam fritz ain "sethkrtsoll" (Sprintf_d n))]
    ∧ (Qabs (2 * to_Q value - inject_Z n) <= 1 # 2)%Q.
Proof.
  intros Hvalid Hfin Hlt.
  pose proof (mul_two_is_finite value Hvalid Hfin Hlt) as Hdbl.
  exists (math.round_half_away (2 * to_Q value)). split.
  - unfold temperatureForAin, math.Round. rewrite Hdbl.
    by rewrite (round_half_away_Proper _ _ (to_Q_mul_two value Hvalid Hdbl)).
  - apply round_half_away_nearest.
Qed.

End Doubled.

Lemma temperatureForAin_half_degrees_witness :
  (temperatureForAin Scenario.Response Scenario.answers Scenario.read
                     Scenario.nonfinite Scenario.box "116570018736"
                     (Float64.of_Z_pow2 43 (-1)) []).2
  = [] ++ [HTTPGet (url_getWithAinAndParam Scenario.box "116570018736"
                      "sethkrtsoll" (Sprintf_d 43))].
Proof.
  apply (temperatureForAin_half_degrees Scenario.Response Scenario.answers
           Scenario.read Scenario.nonfinite Scenario.box "116570018736"
           (Float64.of_Z_pow2 43 (-1)) 43 []); reflexivity.
Defined.

Lemma temperatureForAin_quarter_degree_witness :
  ∃ n : Z,
    (temperatureForAin Scenario.Response Scenario.answers Scenario.read
                       Scenario.nonfinite Scenario.box "116570018736"
                       Float64.t21_3 []).2
    = [] ++ [HTTPGet (url_getWithAinAndParam Scenario.box "116570018736"
                        "sethkrtsoll" (Sprintf_d n))]
    ∧ (Qabs (2 * Float64.to_Q Float64.t21_3 - inject_Z n) <= 1 # 2)%Q.
Proof.
  apply (temperatureForAin_quarter_degree Scenario.Response Scenario.answers
           Scenario.read Scenario.nonfinite Scenario.box "116570018736"
           Float64.t21_3 []); reflexivity.
Defined.

(** ** The units of work and the whole dispatch *)

Lemma mapM_cons {A B} (f : A → M B) a l t :
  mapM f (a :: l) t
  = let (b, t1) := f a t in let (bs, t2) := mapM f l t1 in (b :: bs, t2).
Proof.
  cbn [mapM]. unfold mbind, M_bind, mret, M_ret.
  destruct (f a t) as [b t1]. by destruct (mapM f l t1).
Qed.

Lemma requests_app t1 t2 : requests (t1 ++ t2) = requests t1 ++ requests t2.
Proof. apply omap_app. Qed.

Section Work.
Context (Response : Type)
        (HTTPClient_Get : Trace → string → Response + error)
        (xml_Decode : Response → Devicelist * option error)
        (ReadFullyString : Response + error → string * option error)
        (TrimSpace quote : string → string)
        (range : MapRange)
        (Round_nonfinite : Float64.float64 → Z)
        (fritz : fritzImpl).

#[local] Abbreviation work_of :=
  (workFactory_of Response HTTPClient_Get ReadFullyString Round_nonfinite fritz).
#[local] Abbreviation url_of := (command_url Round_nonfinite fritz).
#[local] Abbreviation scatter :=
  (λ kw : string * Work,
     outcome ← kw.2;
     classify (genericSuccessHandler TrimSpace) genericErrorHandler kw.1 outcome).

Lemma work_of_run c ain t :
  work_of c ain t
  = (ReadFullyString (HTTPClient_Get t (url_of c ain)),
     t ++ [HTTPGet (url_of c ain)]).
Proof. by destruct c. Qed.

Lemma url_of_shape c ain :
  ∃ tail, url_of c ain
          = base_url fritz +:+ "?ain=" +:+ ain +:+ "&switchcmd=" +:+
            switchcmd_of c +:+ tail.
Proof.
  destruct c; cbn [command_url switchcmd_of];
    unfold url_getWithAin, url_getWithAinAndParam; eexists;
    rewrite ?append_assoc_go; reflexivity.
Qed.

(** X15. The callable of every dispatch performs one exchange: it sends
    one request, which names the address and the dispatch's own
    [switchcmd] and is never the listing request, and it returns what
    [ReadFullyString] makes of the answer. *)
Theorem work_one_exchange c ain t :
  workFactory_of Response HTTPClient_Get ReadFullyString Round_nonfinite fritz
                 c ain t
  = (ReadFullyString (HTTPClient_Get t (command_url Round_nonfinite fritz c ain)),
     t ++ [HTTPGet (command_url Round_nonfinite fritz c ain)])
  ∧ contains (command_url Round_nonfinite fritz c ain)
             ("?ain=" +:+ ain +:+ "&switchcmd=" +:+ switchcmd_of c)
  ∧ command_url Round_nonfinite fritz c ain ≠ listing_url fritz.
Proof.
  split; [apply work_of_run|]. destruct (url_of_shape c ain) as [tail Hu].
  split.
  - exists (base_url fritz), tail. rewrite Hu.
    by rewrite !append_assoc_go.
  - rewrite Hu. unfold listing_url, url_get. intros Heq.
    apply (f_equal bytes) in Heq. rewrite !bytes_append in Heq.
    apply app_inv_head in Heq. discriminate Heq.
Qed.

(** One scattered item: the request of its callable, then one log line. *)
Lemma scatter_run c key ain t :
  ∃ line r,
    scatter (key, work_of c ain) t
    = (r, t ++ [HTTPGet (url_of c ain); line])
    ∧ (∀ u, line ≠ HTTPGet u)
    ∧ err r
      = (λ e, errors_New (wrapped key e))
          <$> (ReadFullyString (HTTPClient_Get t (url_of c ain))).2.
Proof.
  unfold mbind, M_bind. cbn [fst snd]. rewrite work_of_run.
  destruct (ReadFullyString _) as [m [e|]]; cbn;
    unfold genericErrorHandler, genericSuccessHandler, emit, mbind, M_bind,
      mret, M_ret;
    rewrite <- app_assoc; cbn [app];
    eexists _, _; (split; [reflexivity|]); split; done.
Qed.

Lemma mapM_scatter c (items : list (string * Work)) t :
  Forall (λ kw, ∃ ain, kw.2 = work_of c ain) items →
  length (requests (mapM scatter items t).2)
  = length (requests t) + length items
  ∧ ((∀ t' u, (ReadFullyString (HTTPClient_Get t' u)).2 = None) →
     omap err (mapM scatter items t).1 = []).
Proof.
  intros Hitems. revert t.
  induction Hitems as [|[key w] items [ain Hw] _ IH]; intros t.
  - cbn [mapM]. unfold mret, M_ret. cbn [fst snd length]. split; [lia|done].
  - cbn in Hw. subst w. rewrite mapM_cons.
    destruct (scatter_run c key ain t) as (line & r & -> & Hline & Herr).
    destruct (IH (t ++ [HTTPGet (url_of c ain); line])) as [IHn IHe].
    destruct (mapM scatter items _) as [rs t2].
    cbn [fst snd length] in *. split.
    + rewrite IHn, requests_app, length_app.
      assert (requests [HTTPGet (url_of c ain); line] = [url_of c ain]) as ->
        by (destruct line; [by destruct (Hline url)|done..]).
      cbn [length]. lia.
    + intros Hall. cbn [omap list_omap]. rewrite Herr, (Hall t).
      cbn [fmap option_fmap option_map]. by apply IHe.
Qed.

Lemma built_targets_work c (table : gmap string string) names key w :
  foldl (λ tg name, <[name := work_of c (default "" (table !! name))]> tg)
        (∅ : gmap string Work) names !! key = Some w →
  ∃ ain, w = work_of c ain.
Proof.
  rewrite (foldl_insert_lookup (λ n, work_of c (default "" (table !! n)))).
  destruct (decide (key ∈ names)); [|done]. intros [= <-]. eauto.
Qed.

Lemma dispatch_resolved c names t dl :
  (ListDevices Response HTTPClient_Get xml_Decode fritz t).1 = (Some dl, None) →
  Forall (resolves (nameToAinTable (Devices dl))) names →
  ∃ items,
    Forall (λ kw, ∃ ain, kw.2 = work_of c ain) items
    ∧ length items = length (remove_dups names)
    ∧ dispatch Response HTTPClient_Get xml_Decode ReadFullyString TrimSpace
               quote range Round_nonfinite fritz c names t
      = (genericResult (mapM scatter items (t ++ [HTTPGet (listing_url fritz)])).1,
         (mapM scatter items (t ++ [HTTPGet (listing_url fritz)])).2).
Proof.
  intros Hok Hall.
  set (table := nameToAinTable (Devices dl)).
  set (targets := foldl (λ tg name,
                    <[name := work_of c (default "" (table !! name))]> tg)
                    (∅ : gmap string Work) names).
  exists (range_of range targets). split; [|split].
  - apply Forall_forall. intros [key w] Hin.
    rewrite (range_perm range) in Hin. apply elem_of_map_to_list in Hin.
    by apply (built_targets_work c table names key).
  - rewrite (range_perm range), length_map_to_list, <- size_dom.
    subst targets.
    rewrite (foldl_insert_dom (λ n, work_of c (default "" (table !! n)))).
    rewrite dom_empty_L, union_empty_l_L.
    assert (list_to_set (C:=gset string) names = list_to_set (remove_dups names))
      as ->.
    { apply set_eq. intros x.
      by rewrite !elem_of_list_to_set, elem_of_remove_dups. }
    apply size_list_to_set, NoDup_remove_dups.
  - rewrite dispatch_doConcurrently. unfold doConcurrently.
    unfold mbind at 1, M_bind at 1.
    rewrite (buildBacklog_ok _ _ _ quote range _ _ _ _ _ Hok).
    rewrite (buildBacklog_loop_resolved quote range _ _ _ _ Hall).
    cbn [default]. fold table. fold targets.
    unfold scatterGather, mbind, M_bind, mret, M_ret, id.
    by destruct (mapM _ (range_of range targets) _).
Qed.

(** X16. When every requested name resolves and every exchange with the
    gateway succeeds, the dispatch returns no error ([scatterGather] as
    the spec describes it). *)
Theorem dispatch_all_succeed c names t dl :
  (ListDevices Response HTTPClient_Get xml_Decode fritz t).1 = (Some dl, None) →
  Forall (resolves (nameToAinTable (Devices dl))) names →
  (∀ t' u, (ReadFullyString (HTTPClient_Get t' u)).2 = None) →
  (dispatch Response HTTPClient_Get xml_Decode ReadFullyString TrimSpace
            quote range Round_nonfinite fritz c names t).1 = None.
Proof.
  intros Hok Hall Hsucc.
  destruct (dispatch_resolved c names t dl Hok Hall) as (items & Hitems & _ & ->).
  cbn [fst]. rewrite genericResult_spec.
  destruct (mapM_scatter c items (t ++ [HTTPGet (listing_url fritz)]) Hitems)
    as [_ Herrs].
  by rewrite (Herrs Hsucc).
Qed.

(** X17. When every requested name resolves, the dispatch sends the
    listing request and exactly one command request per distinct
    requested name, whether the exchanges succeed or fail: a failure
    stops no other target and nothing is retried ([scatterGather] as the
    spec describes it). *)
Theorem dispatch_request_count c names t dl :
  (ListDevices Response HTTPClient_Get xml_Decode fritz t).1 = (Some dl, None) →
  Forall (resolves (nameToAinTable (Devices dl))) names →
  length (requests (dispatch Response HTTPClient_Get xml_Decode ReadFullyString
                      TrimSpace quote range Round_nonfinite fritz c names t).2)
  = length (requests t) + 1 + length (remove_dups names).
Proof.
  intros Hok Hall.
  destruct (dispatch_resolved c names t dl Hok Hall)
    as (items & Hitems & Hlen & ->).
  cbn [snd].
  destruct (mapM_scatter c items (t ++ [HTTPGet (listing_url fritz)]) Hitems)
    as [-> _].
  rewrite requests_app, length_app, Hlen. cbn. lia.
Qed.

(** X18. A dispatch to no device at all fetches the directory and
    returns no error: without names there is nothing to resolve and
    nothing to run. *)
Theorem dispatch_no_names c t dl :
  (ListDevices Response HTTPClient_Get xml_Decode fritz t).1 = (Some dl, None) →
  dispatch Response HTTPClient_Get xml_Decode ReadFullyString TrimSpace
           quote range Round_nonfinite fritz c [] t
  = (None, t ++ [HTTPGet (listing_url fritz)]).
Proof.
  intros Hok.
  destruct (dispatch_resolved c [] t dl Hok (Forall_nil_2 _))
    as (items & _ & Hlen & ->).
  destruct items; [reflexivity|discriminate Hlen].
Qed.

(** X19. One target, one failure: when the only requested name resolves
    and its exchange fails with an error, the dispatch returns "Not all
    devices could be processed! Nested errors are: error toggling device
    '<name>': <error>", whichever of the four commands was dispatched. *)
Theorem dispatch_single_failure c name t dl ain message e :
  (ListDevices Response HTTPClient_Get xml_Decode fritz t).1 = (Some dl, None) →
  nameToAinTable (Devices dl) !! name = Some ain →
  ain ≠ "" →
  ReadFullyString (HTTPClient_Get (t ++ [HTTPGet (listing_url fritz)])
                                  (command_url Round_nonfinite fritz c ain))
  = (message, Some e) →
  (dispatch Response HTTPClient_Get xml_Decode ReadFullyString TrimSpace
            quote range Round_nonfinite fritz c [name] t).1
  = Some (errors_New
            ("Not all devices could be processed! Nested errors are: " +:+
             "error toggling device '" +:+ name +:+ "': " +:+ Error e)).
Proof.
  intros Hok Hain Hne Hfail.
  rewrite dispatch_doConcurrently. unfold doConcurrently.
  unfold mbind at 1, M_bind at 1.
  rewrite (buildBacklog_ok _ _ _ quote range _ _ _ _ _ Hok).
  rewrite (buildBacklog_loop_resolved quote range _ _ [name])
    by (repeat constructor; by exists ain).
  cbn [foldl]. rewrite Hain. cbn [default from_option]. unfold id.
  rewrite insert_empty.
  unfold scatterGather.
  assert (range_of range ({[name := work_of c ain]} : gmap string Work)
          = [(name, work_of c ain)]) as ->.
  { apply Permutation_singleton_r. rewrite (range_perm range).
    by rewrite map_to_list_singleton. }
  cbn [mapM]. unfold mbind, M_bind, mret, M_ret. cbn [fst snd].
  rewrite work_of_run, Hfail. reflexivity.
Qed.

Lemma mapM_scatter_requests c (items : list (string * Work)) t :
  Forall (λ kw, ∃ ain, kw.2 = work_of c ain) items →
  ∃ urls, requests (mapM scatter items t).2 = requests t ++ urls
          ∧ Forall (λ u, ∃ ain, u = url_of c ain) urls.
Proof.
  intros Hitems. revert t.
  induction Hitems as [|[key w] items [ain Hw] _ IH]; intros t.
  - exists []. cbn [mapM]. unfold mret, M_ret. cbn [snd].
    by rewrite app_nil_r.
  - cbn in Hw. subst w. rewrite mapM_cons.
    destruct (scatter_run c key ain t) as (line & r & -> & Hline & _).
    destruct (IH (t ++ [HTTPGet (url_of c ain); line])) as (urls & IHu & IHf).
    destruct (mapM scatter items _) as [rs t2]. cbn [snd] in *.
    exists (url_of c ain :: urls). split; [|constructor; eauto].
    rewrite IHu, requests_app.
    assert (requests [HTTPGet (url_of c ain); line] = [url_of c ain]) as ->
      by (destruct line; [by destruct (Hline url)|done..]).
    by rewrite <- app_assoc.
Qed.

(** X20. Whatever happens, the requests of a dispatch are the listing
    request followed by requests of the dispatched command alone, each
    naming an address and that command's [switchcmd]: a dispatch never
    sends the request of another command, and never lists twice
    ([scatterGather] as the spec describes it). *)
Theorem dispatch_requests_only_own_command c names t :
  ∃ urls,
    requests (dispatch Response HTTPClient_Get xml_Decode ReadFullyString
                TrimSpace quote range Round_nonfinite fritz c names t).2
    = requests t ++ listing_url fritz :: urls
    ∧ Forall (λ u, ∃ ain tail,
                u = base_url fritz +:+ "?ain=" +:+ ain +:+ "&switchcmd=" +:+
                    switchcmd_of c +:+ tail) urls.
Proof.
  destruct (ListDevices Response HTTPClient_Get xml_Decode fritz t).1
    as [devList [e|]] eqn:Hld.
  - exists []. split; [|constructor].
    rewrite dispatch_doConcurrently.
    rewrite (doConcurrently_err _ _ _ TrimSpace quote range _ _ _ _ e)
      by (by rewrite Hld).
    cbn [snd]. by rewrite requests_app.
  - pose proof (ListDevices_pointer Response HTTPClient_Get xml_Decode fritz t)
      as Hp. rewrite Hld in Hp. cbn [fst snd] in Hp.
    destruct (Hp eq_refl) as [dl ->].
    destruct (buildBacklog_loop_cases quote range
                (nameToAinTable (Devices dl)) (work_of c) names ∅)
      as [[Hall _]|[_ [e Hloop]]].
    + destruct (dispatch_resolved c names t dl Hld Hall) as (items & Hitems & _ & ->).
      destruct (mapM_scatter_requests c items
                  (t ++ [HTTPGet (listing_url fritz)]) Hitems)
        as (urls & Hu & Hf).
      exists urls. cbn [snd]. rewrite Hu, requests_app.
      split; [by rewrite <- app_assoc|].
      eapply Forall_impl; [exact Hf|]. intros u [ain ->].
      destruct (url_of_shape c ain) as [tail Htail]. eauto.
    + exists []. split; [|constructor].
      rewrite dispatch_doConcurrently. unfold doConcurrently.
      unfold mbind at 1, M_bind at 1.
      rewrite (buildBacklog_ok _ _ _ quote range _ _ _ _ _ Hld), Hloop.
      unfold mret, M_ret. cbn [snd]. by rewrite requests_app.
Qed.

End Work.

Lemma dispatch_all_succeed_witness :
  (Scenario.run toggle ["Plug"; "Lamp"; "Plug"] []).1 = None.
Proof.
  apply (dispatch_all_succeed Scenario.Response Scenario.answers
           Scenario.decoded Scenario.read Scenario.trim Scenario.quote
           Scenario.in_order Scenario.nonfinite Scenario.box
           toggle ["Plug"; "Lamp"; "Plug"] [] {| Devices := Scenario.listing |}).
  - reflexivity.
  - repeat constructor; eexists; (split; [vm_compute; reflexivity|discriminate]).
  - reflexivity.
Defined.

Lemma dispatch_request_count_witness :
  length (requests
            (dispatch Scenario.Response Scenario.first_only Scenario.decoded
               Scenario.read Scenario.trim Scenario.quote Scenario.in_order
               Scenario.nonfinite Scenario.box
               switch_on ["Plug"; "Lamp"; "Plug"] []).2)
  = length (requests []) + 1 + length (remove_dups ["Plug"; "Lamp"; "Plug"]).
Proof.
  apply (dispatch_request_count Scenario.Response Scenario.first_only
           Scenario.decoded Scenario.read Scenario.trim Scenario.quote
           Scenario.in_order Scenario.nonfinite Scenario.box
           switch_on ["Plug"; "Lamp"; "Plug"] []
           {| Devices := Scenario.listing |}).
  - reflexivity.
  - repeat constructor; eexists; (split; [vm_compute; reflexivity|discriminate]).
Defined.

Lemma dispatch_no_names_witness :
  Scenario.run switch_off [] [] = (None, [] ++ [HTTPGet (listing_url Scenario.box)]).
Proof.
  apply (dispatch_no_names Scenario.Response Scenario.answers
           Scenario.decoded Scenario.read Scenario.trim Scenario.quote
           Scenario.in_order Scenario.nonfinite Scenario.box
           switch_off [] {| Devices := Scenario.listing |}).
  reflexivity.
Defined.

Lemma dispatch_single_failure_witness :
  (dispatch Scenario.Response Scenario.first_only Scenario.decoded
            Scenario.read Scenario.trim Scenario.quote Scenario.in_order
            Scenario.nonfinite Scenario.box
            (set_temperature Float64.t21_3) ["Lamp"] []).1
  = Some (errors_New
            ("Not all devices could be processed! Nested errors are: " +:+
             "error toggling device '" +:+ "Lamp" +:+ "': " +:+
             Error (errors_New "timeout"))).
Proof.
  apply (dispatch_single_failure Scenario.Response Scenario.first_only
           Scenario.decoded Scenario.read Scenario.trim Scenario.quote
           Scenario.in_order Scenario.nonfinite Scenario.box
           (set_temperature Float64.t21_3) "Lamp" []
           {| Devices := Scenario.listing |} "116570018736" ""
           (errors_New "timeout")).
  - reflexivity.
  - vm_compute. reflexivity.
  - discriminate.
  - reflexivity.
Defined.
